(** * Power allocation in a two-user UAV-NOMA downlink: model and properties

    A shallow embedding of [pa-uav-noma.py]: the Monte Carlo trial (random
    geometry, Rician channel gains, user ordering, NOMA/OMA rate engine,
    outage classification) and the driver loop that fills the per-trial rows
    of the result matrices.

    Conventions of the embedding:
    - NumPy [float64] values are real numbers ([R]); [np.log] is [ln],
      [np.sqrt] is [sqrt], [10**x] is [Rpower 10 x].
    - A one-dimensional array, and an [(n,1)] column, is a [list R]; a
      two-dimensional result array is a list of rows.
    - An operation on which Python or NumPy raises returns [None]: an index
      out of range ([IndexError]), a value of the wrong shape and a negative
      scale of [np.random.normal] ([ValueError]), a division of Python
      numbers by zero ([ZeroDivisionError]).
    - The global random generator is a tape of variates and a read position;
      every draw reads the tape at the position and advances it.
    - [np.log] and [/] on NumPy numbers are [ln] and real division; the two
      agree with NumPy on the arguments the program produces from
      non-negative gains and power coefficients (logarithms of numbers at
      least 1, denominators at least 1).  Likewise [sqrt] agrees with
      [np.sqrt] on the non-negative numbers; the properties of the Rician
      parameters and of whole trials are stated for a Rician factor and a
      line-of-sight power that are not negative.
    - [np.complex] is the built-in [complex]; the arrays [rate_us],
      [rate_uw] and [out_probability], which the script allocates and never
      touches again, are left out. *)

From Stdlib Require Import Reals Lra Lia ZArith Sorted.
From stdpp Require Import base option list.
Local Open Scope R_scope.

#[global] Instance Rlt_decision : RelDecision Rlt := Rlt_dec.
#[global] Instance R_eq_decision : EqDecision R := Req_dec_T.

(** ** Python and NumPy primitives *)

(** [range(start, stop, step)] for a positive [step]. *)
Definition py_range (start stop step : Z) : list Z :=
  (λ i, start + step * i)%Z <$> seqZ 0 ((stop - start + step - 1) / step).

(** Python's [x / y] on numbers: a zero divisor raises
    [ZeroDivisionError]. *)
Definition py_div (x y : R) : option R :=
  if decide (y = 0) then None else Some (x / y).

(** [np.zeros(n)] and [np.zeros((rows, cols))]. *)
Definition np_zeros (n : nat) : list R := replicate n 0.
Definition np_zeros2 (rows cols : nat) : list (list R) :=
  replicate rows (np_zeros cols).

(** [a[i] = v]: an index outside the array raises [IndexError]. *)
Definition store (a : list R) (i : nat) (v : R) : option (list R) :=
  if decide (i < length a)%nat then Some (<[i := v]> a) else None.

(** [m[i, j]], [m[i, j] = v] and [m[i, :] = row] on a two-dimensional array. *)
Definition mget (m : list (list R)) (i j : nat) : option R :=
  row ← m !! i; row !! j.

Definition mset (m : list (list R)) (i j : nat) (v : R)
  : option (list (list R)) :=
  row ← m !! i; row' ← store row j v; Some (<[i := row']> m).

Definition mset_row (m : list (list R)) (i : nat) (r : list R)
  : option (list (list R)) :=
  row ← m !! i;
  if decide (length r = length row) then Some (<[i := r]> m) else None.

(** A [for] loop over a list of indices whose body may raise. *)
Fixpoint for_each {S : Type} (body : S → nat → option S) (idx : list nat)
  (st : S) : option S :=
  match idx with
  | [] => Some st
  | i :: rest => st' ← body st i; for_each body rest st'
  end.

(** [sorted(l, reverse=True)]: insertion into a descending list. *)
Fixpoint insert_desc (x : R) (l : list R) : list R :=
  match l with
  | [] => [x]
  | y :: rest => if decide (y < x) then x :: l else y :: insert_desc x rest
  end.

Definition sorted_reverse (l : list R) : list R := foldr insert_desc [] l.

(** [np.max] and [np.min] of a sequence; the empty sequence raises
    [ValueError]. *)
Definition np_max (l : list R) : option R :=
  match l with [] => None | x :: rest => Some (foldl Rmax x rest) end.

Definition np_min (l : list R) : option R :=
  match l with [] => None | x :: rest => Some (foldl Rmin x rest) end.

(** Element-wise arithmetic of an [(m,1)] column with an [(n,1)] column:
    equal lengths combine pointwise, a length-one column is broadcast, any
    other pair of shapes raises [ValueError]. *)
Definition broadcast2 (f : R → R → R) (a b : list R) : option (list R) :=
  if decide (length a = length b) then Some (zip_with f a b)
  else match a, b with
       | [x], _ => Some (f x <$> b)
       | _, [y] => Some ((λ x, f x y) <$> a)
       | _, _ => None
       end.

(** Assigning an array to one scalar slot needs an array of size one. *)
Definition as_scalar (a : list R) : option R :=
  match a with [x] => Some x | _ => None end.

(** ** Complex numbers, as used by the fading coefficient *)

Module Cplx.

Definition C : Type := R * R.

Definition of_real (x : R) : C := (x, 0).
Definition i : C := (0, 1).
Definition add (z w : C) : C := (z.1 + w.1, z.2 + w.2).
Definition mul (z w : C) : C :=
  (z.1 * w.1 - z.2 * w.2, z.1 * w.2 + z.2 * w.1).
Definition div (z w : C) : C :=
  ((z.1 * w.1 + z.2 * w.2) / (w.1 * w.1 + w.2 * w.2),
   (z.2 * w.1 - z.1 * w.2) / (w.1 * w.1 + w.2 * w.2)).
Definition abs (z : C) : R := sqrt (z.1 * z.1 + z.2 * z.2).

(** Principal square root. *)
Definition sqrt (z : C) : C :=
  (R_sqrt.sqrt ((abs z + z.1) / 2),
   (if decide (z.2 < 0) then -1 else 1) * R_sqrt.sqrt ((abs z - z.1) / 2)).

End Cplx.

(** ** Random generator *)

Record Rng := { tape : nat → R; pos : nat }.

Definition advance (n : nat) (g : Rng) : Rng :=
  {| tape := tape g; pos := (pos g + n)%nat |}.

(** [np.random.rand(n, 1)]: [n] uniform variates, in tape order. *)
Definition rand (n : nat) (g : Rng) : list R * Rng :=
  (tape g <$> seq (pos g) n, advance n g).

(** [np.random.normal(loc, scale)]: a negative [scale] raises
    [ValueError]; otherwise one standard variate, scaled and shifted. *)
Definition normal (loc scale : R) (g : Rng) : option (R * Rng) :=
  if decide (scale < 0) then None
  else Some (loc + scale * tape g (pos g), advance 1 g).

(** ** Module-level parameters (lines 24-47) *)

Record Config := {
  N_mc : nat;
  N_users : nat;
  M_uav : nat;
  snr_dB : list Z;
  path_loss_exp : nat;
  P_los : R;
  K : R;
  target_rate_primary_user : R;
  target_rate_secondary_user : R;
  powerCoeff : list R;
  radius_uav : R;
  radius_user : R
}.

Definition snr_linear (cfg : Config) : list R :=
  (λ d, Rpower 10 (IZR d / 10)) <$> snr_dB cfg.

(** Line 35: [K/(K+1)] is a Python division and raises at [K = -1]; the
    square root is NumPy's and does not raise. *)
Definition s (cfg : Config) : option R :=
  q ← py_div (K cfg) (K cfg + 1); Some (sqrt (q * P_los cfg)).

(** The value line 35 assigns to [s] when the division does not raise. *)
Definition rician_mean (cfg : Config) : R :=
  sqrt (K cfg / (K cfg + 1) * P_los cfg).

(** Line 36: the divisor is a NumPy number, the division does not raise. *)
Definition sigma (cfg : Config) : R := P_los cfg / sqrt (2 * (K cfg + 1)).

(** The values the script assigns. *)
Definition default_config : Config := {|
  N_mc := Nat.pow 10 4;
  N_users := 2;
  M_uav := 1;
  snr_dB := py_range 10 51 2;
  path_loss_exp := 2;
  P_los := 1.0;
  K := 8;
  target_rate_primary_user := 1.0;
  target_rate_secondary_user := 0.5;
  powerCoeff := [0.8; 0.2];
  radius_uav := 1.0;
  radius_user := 2.0
|}.

(** ** Geometry (lines 64-116) *)

Definition random_Position_UAV (numberUAV : nat) (radiusUAV : R) (g : Rng)
  : (list R * list R * R) * Rng :=
  let '(u, g) := rand numberUAV g in
  let theta_r := (λ x, x * (PI * 2)) <$> u in
  let rho_r := radiusUAV in
  let x_r := (λ t, rho_r * cos t) <$> theta_r in
  let y_r := (λ t, rho_r * sin t) <$> theta_r in
  let z_r := 30.0 in
  ((x_r, y_r, z_r), g).

Definition random_Position_Users (numberUsers : nat) (radiusUser : R)
  (g : Rng) : (list R * list R) * Rng :=
  let '(u1, g) := rand numberUsers g in
  let theta_u := (λ x, x * (PI * 2)) <$> u1 in
  let '(u2, g) := rand numberUsers g in
  let rho_u := (λ x, sqrt x * radiusUser) <$> u2 in
  let x_u := zip_with (λ r t, r * cos t) rho_u theta_u in
  let y_u := zip_with (λ r t, r * sin t) rho_u theta_u in
  ((x_u, y_u), g).

(** ** Channel model (lines 119-165) *)

(** The generator and the two module-level arrays [generate_Channel]
    writes. *)
Record ChanState := {
  rng : Rng;
  h_n : list R;
  distance : list R
}.

Definition channel_step (s sigma : R) (user_X user_Y uav_X uav_Y : list R)
  (path_loss : nat) (uav_Z : R) (st : ChanState) (uu : nat)
  : option ChanState :=
  '(n1, g) ← normal s sigma (rng st);
  '(n2, g) ← normal 0 sigma g;
  let ch_coeff :=
    Cplx.sqrt (Cplx.add (Cplx.of_real (n1 ^ 2))
                        (Cplx.mul Cplx.i (Cplx.of_real (n2 ^ 2)))) in
  ux ← user_X !! uu;
  uy ← user_Y !! uu;
  d2 ← broadcast2 Rplus ((λ a, (ux - a) ^ 2) <$> uav_X)
                        ((λ a, (uy - a) ^ 2) <$> uav_Y);
  d ← as_scalar ((λ q, sqrt (q + uav_Z ^ 2)) <$> d2);
  distance' ← store (distance st) uu d;
  du ← distance' !! uu;
  h_n' ← store (h_n st) uu
         (Cplx.abs (Cplx.div ch_coeff
                      (sqrt (1 + du ^ path_loss), 0)) ^ 2);
  Some {| rng := g; h_n := h_n'; distance := distance' |}.

Definition generate_Channel (s sigma : R) (numberUser : nat)
  (user_X user_Y uav_X uav_Y : list R) (path_loss : nat) (uav_Z : R)
  (st : ChanState) : option (list R * ChanState) :=
  st' ← for_each (channel_step s sigma user_X user_Y uav_X uav_Y
                    path_loss uav_Z) (seq 0 numberUser) st;
  Some (sorted_reverse (h_n st'), st').

(** ** Rate engine (lines 173-216) *)

(** The four per-trial arrays [calculate_Instantaneous_Rate] writes. *)
Record RateBuffers := {
  sinr_primary : list R;
  sinr_secondary : list R;
  inst_rate_primary : list R;
  inst_rate_secondary : list R
}.

Definition rate_buffers (cfg : Config) : RateBuffers :=
  let n := length (snr_dB cfg) in
  {| sinr_primary := np_zeros n;
     sinr_secondary := np_zeros n;
     inst_rate_primary := np_zeros n;
     inst_rate_secondary := np_zeros n |}.

(** One iteration of the loop of lines 204-214.  [snr_lin] is the
    module-level [snr_linear] the body reads. *)
Definition rate_step (snr_lin : list R) (channelPri channelSec : R)
  (power : list R) (target_RatePri : R) (b : RateBuffers) (sn : nat)
  : option RateBuffers :=
  g ← snr_lin !! sn;
  p0 ← power !! 0%nat;
  p1 ← power !! 1%nat;
  sp ← store (sinr_primary b) sn
         (g * channelPri * p0 / (g * channelSec * p1 + 1));
  v ← sp !! sn;
  rp ← store (inst_rate_primary b) sn (ln (1 + v));
  r ← rp !! sn;
  '(sp, rp) ←
    (if decide (r < target_RatePri) then
       sp' ← store sp sn (g * channelPri);
       v' ← sp' !! sn;
       rp' ← store rp sn (0.5 * ln (1 + v'));
       Some (sp', rp')
     else Some (sp, rp));
  ss ← store (sinr_secondary b) sn (g * channelSec * p1);
  w ← ss !! sn;
  rs ← store (inst_rate_secondary b) sn (ln (1 + w));
  Some {| sinr_primary := sp; sinr_secondary := ss;
          inst_rate_primary := rp; inst_rate_secondary := rs |}.

(** The loop; it returns the buffers, of which the Python function hands
    back [inst_rate_primary] and [inst_rate_secondary].  The argument
    [snrValues] is only measured. *)
Definition rate_loop {A : Type} (snr_lin : list R)
  (channelPri channelSec : R) (snrValues : list A) (power : list R)
  (target_RatePri : R) (b : RateBuffers) : option RateBuffers :=
  for_each (rate_step snr_lin channelPri channelSec power target_RatePri)
    (seq 0 (length snrValues)) b.

Definition calculate_Instantaneous_Rate {A : Type} (cfg : Config)
  (channelPri channelSec : R) (snrValues : list A) (power : list R)
  (target_RatePri : R) : option (list R * list R) :=
  b ← rate_loop (snr_linear cfg) channelPri channelSec snrValues power
        target_RatePri (rate_buffers cfg);
  Some (inst_rate_primary b, inst_rate_secondary b).

(** ** Outage classification and the driver (lines 50-58, 62, 218-241) *)

Record Stats := {
  out_probability_system : list (list R);
  out_probability_secondary_user : list (list R);
  out_probability_primary_user : list (list R);
  average_rate : list (list R);
  instantaneous_rate_secondary : list (list R);
  instantaneous_rate_primary : list (list R)
}.

Definition initial_stats (cfg : Config) : Stats :=
  let z := np_zeros2 (N_mc cfg) (length (snr_dB cfg)) in
  {| out_probability_system := z;
     out_probability_secondary_user := z;
     out_probability_primary_user := z;
     average_rate := z;
     instantaneous_rate_secondary := z;
     instantaneous_rate_primary := z |}.

(** One iteration of the loop of lines 221-241, for trial [mc]. *)
Definition outage_step (cfg : Config) (mc : nat) (st : Stats) (sn : nat)
  : option Stats :=
  rp ← mget (instantaneous_rate_primary st) mc sn;
  in_outage ←
    (if decide (rp < target_rate_primary_user cfg) then Some true
     else rs ← mget (instantaneous_rate_secondary st) mc sn;
          Some (bool_decide (rs < target_rate_secondary_user cfg)));
  sys ← mset (out_probability_system st) mc sn
          (if in_outage : bool then 1 else 0);
  rp ← mget (instantaneous_rate_primary st) mc sn;
  pri ← mset (out_probability_primary_user st) mc sn
          (if decide (rp < target_rate_primary_user cfg) then 1 else 0);
  rs ← mget (instantaneous_rate_secondary st) mc sn;
  sec ← mset (out_probability_secondary_user st) mc sn
          (if decide (rs < target_rate_secondary_user cfg) then 1 else 0);
  rp ← mget (instantaneous_rate_primary st) mc sn;
  rs ← mget (instantaneous_rate_secondary st) mc sn;
  avg ← mset (average_rate st) mc sn ((rp + rs) / 2);
  Some {| out_probability_system := sys;
          out_probability_secondary_user := sec;
          out_probability_primary_user := pri;
          average_rate := avg;
          instantaneous_rate_secondary := instantaneous_rate_secondary st;
          instantaneous_rate_primary := instantaneous_rate_primary st |}.

(** The two channel realisations of lines 164-165: [generate_Channel] is
    called once for the primary gain and once more for the secondary gain. *)
Definition channel_gains (cfg : Config)
  (user_AxisX user_AxisY uav_AxisX uav_AxisY : list R) (uav_heigth : R)
  (st : ChanState) : option (R * R * ChanState) :=
  s0 ← s cfg;
  '(gains1, st) ← generate_Channel s0 (sigma cfg) (N_users cfg)
                    user_AxisX user_AxisY uav_AxisX uav_AxisY
                    (path_loss_exp cfg) uav_heigth st;
  channelGainPrimary ← np_max gains1;
  '(gains2, st) ← generate_Channel s0 (sigma cfg) (N_users cfg)
                    user_AxisX user_AxisY uav_AxisX uav_AxisY
                    (path_loss_exp cfg) uav_heigth st;
  channelGainSecondary ← np_min gains2;
  Some (channelGainPrimary, channelGainSecondary, st).

(** The geometry and the gains of one trial, from the generator. *)
Definition trial_gains (cfg : Config) (g : Rng) : option (R * R * Rng) :=
  let '((uav_AxisX, uav_AxisY, uav_heigth), g) :=
    random_Position_UAV (M_uav cfg) (radius_uav cfg) g in
  let '((user_AxisX, user_AxisY), g) :=
    random_Position_Users (N_users cfg) (radius_user cfg) g in
  let st := {| rng := g; h_n := np_zeros (N_users cfg);
               distance := np_zeros (N_users cfg) |} in
  '(channelGainPrimary, channelGainSecondary, st) ←
    channel_gains cfg user_AxisX user_AxisY uav_AxisX uav_AxisY
      uav_heigth st;
  Some (channelGainPrimary, channelGainSecondary, rng st).

(** The body of the Monte Carlo loop for trial [mc]. *)
Definition trial (cfg : Config) (st : Rng * Stats) (mc : nat)
  : option (Rng * Stats) :=
  let '(g, stats) := st in
  '(channelGainPrimary, channelGainSecondary, g) ← trial_gains cfg g;
  '(rate_p, rate_s) ←
    calculate_Instantaneous_Rate cfg channelGainPrimary
      channelGainSecondary (snr_dB cfg) (powerCoeff cfg)
      (target_rate_primary_user cfg);
  irp ← mset_row (instantaneous_rate_primary stats) mc rate_p;
  irs ← mset_row (instantaneous_rate_secondary stats) mc rate_s;
  stats ← for_each (outage_step cfg mc) (seq 0 (length (snr_dB cfg)))
            {| out_probability_system := out_probability_system stats;
               out_probability_secondary_user :=
                 out_probability_secondary_user stats;
               out_probability_primary_user :=
                 out_probability_primary_user stats;
               average_rate := average_rate stats;
               instantaneous_rate_secondary := irs;
               instantaneous_rate_primary := irp |};
  Some (g, stats).

(** The whole script: the module-level parameters are computed, where line
    35 may raise, then [N_mc] trials run from the zero-initialised arrays. *)
Definition simulate (cfg : Config) (g : Rng) : option (Rng * Stats) :=
  _ ← s cfg;
  for_each (trial cfg) (seq 0 (N_mc cfg)) (g, initial_stats cfg).

(** ** The rate of one grid point, in closed form

    What one iteration of the rate loop leaves at its index, as a function
    of the grid value [g] alone. *)

Definition noma_sinr (channelPri channelSec p0 p1 g : R) : R :=
  g * channelPri * p0 / (g * channelSec * p1 + 1).

Definition primary_sinr_at (channelPri channelSec p0 p1 target g : R) : R :=
  if decide (ln (1 + noma_sinr channelPri channelSec p0 p1 g) < target)
  then g * channelPri
  else noma_sinr channelPri channelSec p0 p1 g.

Definition primary_rate_at (channelPri channelSec p0 p1 target g : R) : R :=
  if decide (ln (1 + noma_sinr channelPri channelSec p0 p1 g) < target)
  then 0.5 * ln (1 + g * channelPri)
  else ln (1 + noma_sinr channelPri channelSec p0 p1 g).

Definition secondary_sinr_at (channelSec p1 g : R) : R :=
  g * channelSec * p1.

Definition secondary_rate_at (channelSec p1 g : R) : R :=
  ln (1 + g * channelSec * p1).

(** An array of length [len] whose first [k] entries are [f] of the first
    [k] grid values and whose other entries are still zero. *)
Definition filled (f : R → R) (k len : nat) (grid : list R) : list R :=
  (f <$> take k grid) ++ replicate (len - k) 0.

(** The outage indicators of lines 223-238. *)
Definition system_outage (cfg : Config) (rate_p rate_s : R) : R :=
  if decide (rate_p < target_rate_primary_user cfg
             ∨ rate_s < target_rate_secondary_user cfg) then 1 else 0.

Definition primary_outage (cfg : Config) (rate_p : R) : R :=
  if decide (rate_p < target_rate_primary_user cfg) then 1 else 0.

Definition secondary_outage (cfg : Config) (rate_s : R) : R :=
  if decide (rate_s < target_rate_secondary_user cfg) then 1 else 0.

(** The buffers after the first [k] grid points have been processed. *)
Definition buffers_after (snr_lin : list R) (channelPri channelSec p0 p1
  target : R) (k : nat) : RateBuffers :=
  let len := length snr_lin in
  {| sinr_primary :=
       filled (primary_sinr_at channelPri channelSec p0 p1 target) k len
         snr_lin;
     sinr_secondary := filled (secondary_sinr_at channelSec p1) k len snr_lin;
     inst_rate_primary :=
       filled (primary_rate_at channelPri channelSec p0 p1 target) k len
         snr_lin;
     inst_rate_secondary :=
       filled (secondary_rate_at channelSec p1) k len snr_lin |}.

(** ** One trial's rows, in closed form *)

(** A row whose first [k] entries have been overwritten with those of
    [vals]. *)
Definition overwritten (vals old : list R) (k : nat) : list R :=
  take k vals ++ drop k old.

Definition average_of (rate_p rate_s : R) : R := (rate_p + rate_s) / 2.

(** The statistics after the first [k] iterations of the outage loop of
    trial [mc], the rate rows of the trial being [rp] and [rs]. *)
Definition outage_state (cfg : Config) (mc : nat) (st : Stats)
  (rp rs : list R) (k : nat) : Stats :=
  let row (vals : list R) (m : list (list R)) :=
    match m !! mc with
    | Some old => <[mc := overwritten vals old k]> m
    | None => m
    end in
  {| out_probability_system :=
       row (zip_with (system_outage cfg) rp rs) (out_probability_system st);
     out_probability_secondary_user :=
       row (secondary_outage cfg <$> rs) (out_probability_secondary_user st);
     out_probability_primary_user :=
       row (primary_outage cfg <$> rp) (out_probability_primary_user st);
     average_rate := row (zip_with average_of rp rs) (average_rate st);
     instantaneous_rate_secondary := instantaneous_rate_secondary st;
     instantaneous_rate_primary := instantaneous_rate_primary st |}.

(** Every array of the statistics has [rows] rows of [cols] entries. *)
Definition matrix_shape (rows cols : nat) (m : list (list R)) : Prop :=
  length m = rows ∧ Forall (λ row, length row = cols) m.

Definition stats_shape (rows cols : nat) (st : Stats) : Prop :=
  matrix_shape rows cols (out_probability_system st)
  ∧ matrix_shape rows cols (out_probability_secondary_user st)
  ∧ matrix_shape rows cols (out_probability_primary_user st)
  ∧ matrix_shape rows cols (average_rate st)
  ∧ matrix_shape rows cols (instantaneous_rate_secondary st)
  ∧ matrix_shape rows cols (instantaneous_rate_primary st).

(** ** The channel gains, in closed form *)

(** The fading coefficient of line 157 from two standard variates. *)
Definition fading (s sigma z1 z2 : R) : Cplx.C :=
  Cplx.sqrt (Cplx.add (Cplx.of_real ((s + sigma * z1) ^ 2))
                      (Cplx.mul Cplx.i (Cplx.of_real ((0 + sigma * z2) ^ 2)))).

Definition user_distance (ux uy ax ay uav_Z : R) : R :=
  sqrt ((ux - ax) ^ 2 + (uy - ay) ^ 2 + uav_Z ^ 2).

(** The channel gain of line 159 for a user at distance [d]. *)
Definition user_gain (s sigma : R) (path_loss : nat) (z1 z2 d : R) : R :=
  Cplx.abs (Cplx.div (fading s sigma z1 z2) (sqrt (1 + d ^ path_loss), 0)) ^ 2.

Definition distances (user_X user_Y : list R) (ax ay uav_Z : R) : list R :=
  (λ u : R * R, user_distance u.1 u.2 ax ay uav_Z) <$> zip user_X user_Y.

(** The gains one call of [generate_Channel] computes when the generator
    stands at position [p] of the tape [t]. *)
Definition gains_at (t : nat → R) (p : nat) (s sigma : R) (path_loss : nat)
  (user_X user_Y : list R) (ax ay uav_Z : R) : list R :=
  imap (λ k d, user_gain s sigma path_loss (t (p + 2 * k)%nat)
                 (t (p + 2 * k + 1)%nat) d)
       (distances user_X user_Y ax ay uav_Z).

(** The arrays after the first [k] users of one call. *)
Definition chan_state_after (t : nat → R) (p : nat) (gains dists h d : list R)
  (k : nat) : ChanState :=
  {| rng := {| tape := t; pos := (p + 2 * k)%nat |};
     h_n := overwritten gains h k;
     distance := overwritten dists d k |}.

(** The positions of one trial when the generator stands at position [p] of
    the tape [t]: one uniform variate for the UAV angle, then [n] for the
    user angles and [n] for the user radii. *)
Definition uav_x (cfg : Config) (t : nat → R) (p : nat) : R :=
  radius_uav cfg * cos (t p * (PI * 2)).

Definition uav_y (cfg : Config) (t : nat → R) (p : nat) : R :=
  radius_uav cfg * sin (t p * (PI * 2)).

Definition users_x (cfg : Config) (t : nat → R) (p : nat) : list R :=
  (random_Position_Users (N_users cfg) (radius_user cfg)
     {| tape := t; pos := S p |}).1.1.

Definition users_y (cfg : Config) (t : nat → R) (p : nat) : list R :=
  (random_Position_Users (N_users cfg) (radius_user cfg)
     {| tape := t; pos := S p |}).1.2.

(** The gains of the first and of the second call of [generate_Channel] in
    that trial. *)
Definition first_gains (cfg : Config) (t : nat → R) (p : nat) : list R :=
  gains_at t (S p + 2 * N_users cfg) (rician_mean cfg) (sigma cfg)
    (path_loss_exp cfg)
    (users_x cfg t p) (users_y cfg t p) (uav_x cfg t p) (uav_y cfg t p) 30.0.

Definition second_gains (cfg : Config) (t : nat → R) (p : nat) : list R :=
  gains_at t (S p + 2 * N_users cfg + 2 * N_users cfg) (rician_mean cfg)
    (sigma cfg) (path_loss_exp cfg)
    (users_x cfg t p) (users_y cfg t p) (uav_x cfg t p) (uav_y cfg t p) 30.0.

(** Variates one trial consumes. *)
Definition draws_per_trial (cfg : Config) : nat :=
  (1 + 2 * N_users cfg + 2 * N_users cfg + 2 * N_users cfg)%nat.

(** ** The rows of one trial *)

Record TrialRows := {
  row_rate_primary : list R;
  row_rate_secondary : list R;
  row_system : list R;
  row_primary : list R;
  row_secondary : list R;
  row_average : list R
}.

(** The rows a trial with gains [gp] and [gs] writes, the power split being
    [(p0, p1)]. *)
Definition rows_of_gains (cfg : Config) (gp gs p0 p1 : R) : TrialRows :=
  let rp := primary_rate_at gp gs p0 p1 (target_rate_primary_user cfg)
              <$> snr_linear cfg in
  let rs := secondary_rate_at gs p1 <$> snr_linear cfg in
  {| row_rate_primary := rp;
     row_rate_secondary := rs;
     row_system := zip_with (system_outage cfg) rp rs;
     row_primary := primary_outage cfg <$> rp;
     row_secondary := secondary_outage cfg <$> rs;
     row_average := zip_with average_of rp rs |}.

(** Row [mc] of the six result arrays. *)
Definition stats_row (st : Stats) (mc : nat) : option TrialRows :=
  rp ← instantaneous_rate_primary st !! mc;
  rs ← instantaneous_rate_secondary st !! mc;
  sys ← out_probability_system st !! mc;
  pri ← out_probability_primary_user st !! mc;
  sec ← out_probability_secondary_user st !! mc;
  avg ← average_rate st !! mc;
  Some {| row_rate_primary := rp; row_rate_secondary := rs;
          row_system := sys; row_primary := pri; row_secondary := sec;
          row_average := avg |}.

Definition write_rows (st : Stats) (mc : nat) (r : TrialRows) : Stats :=
  {| out_probability_system :=
       <[mc := row_system r]> (out_probability_system st);
     out_probability_secondary_user :=
       <[mc := row_secondary r]> (out_probability_secondary_user st);
     out_probability_primary_user :=
       <[mc := row_primary r]> (out_probability_primary_user st);
     average_rate := <[mc := row_average r]> (average_rate st);
     instantaneous_rate_secondary :=
       <[mc := row_rate_secondary r]> (instantaneous_rate_secondary st);
     instantaneous_rate_primary :=
       <[mc := row_rate_primary r]> (instantaneous_rate_primary st) |}.

(** Parameter values under which no operation of the script raises: one
    UAV, at least one user, two power coefficients, and a Rician factor and
    a line-of-sight power that are not negative, so that line 35 does not
    divide by zero, no square root of lines 35-36 is taken of a negative
    number and [np.random.normal] gets a scale that is not negative. *)
Definition well_formed (cfg : Config) : Prop :=
  M_uav cfg = 1%nat ∧ (1 ≤ N_users cfg)%nat
  ∧ (2 ≤ length (powerCoeff cfg))%nat
  ∧ 0 <= K cfg ∧ 0 <= P_los cfg.

(** ** Two tapes *)

(** The generator hands out zero at every draw: the UAV at angle zero, both
    users at the centre, every fading variate at its mean. *)
Definition zero_tape : nat → R := λ _, 0.

(** The generator hands out one quarter at every draw. *)
Definition quarter_tape : nat → R := λ _, 0.25.

(** As [zero_tape], but the first call of [generate_Channel] (draws 5 to 8)
    sees its line-of-sight variates one standard deviation below the mean and
    the second call (draws 9 to 12) one standard deviation above. *)
Definition two_realisations_tape (n : nat) : R :=
  if decide (n = 5 ∨ n = 7)%nat then -1
  else if decide (n = 9 ∨ n = 11)%nat then 1
  else 0.

(** The gain of a user of the script's configuration at squared distance
    901 from the UAV. *)
Definition centre_gain (z1 z2 : R) : R :=
  sqrt ((rician_mean default_config + sigma default_config * z1) ^ 4
        + (sigma default_config * z2) ^ 4) / 902.

(** ** Configuration validity, in the words of the specification

    Section 7 of the specification calls a configuration invalid when a
    radius is negative, an SNR is zero or negative, the power coefficients do
    not sum to 1 or a target rate is negative.  The script has no such
    check; the predicate is only used to state what it accepts. *)
Definition valid_configuration (cfg : Config) : Prop :=
  0 <= radius_uav cfg ∧ 0 <= radius_user cfg
  ∧ Forall (λ g, 0 < g) (snr_linear cfg)
  ∧ foldr Rplus 0 (powerCoeff cfg) = 1
  ∧ 0 <= target_rate_primary_user cfg
  ∧ 0 <= target_rate_secondary_user cfg.

(** The script's values with a negative user radius, power coefficients of
    sum 1.3 and negative target rates. *)
Definition invalid_config : Config := {|
  N_mc := Nat.pow 10 4;
  N_users := 2;
  M_uav := 1;
  snr_dB := py_range 10 51 2;
  path_loss_exp := 2;
  P_los := 1.0;
  K := 8;
  target_rate_primary_user := -1.0;
  target_rate_secondary_user := -0.5;
  powerCoeff := [0.8; 0.5];
  radius_uav := 1.0;
  radius_user := -2.0
|}.

(** ** Configurations the script cannot run

    The script's values with two UAVs, with no user, with the Rician factor
    -1 and with a negative line-of-sight power. *)
Definition two_uav_config : Config := {|
  N_mc := Nat.pow 10 4;
  N_users := 2;
  M_uav := 2;
  snr_dB := py_range 10 51 2;
  path_loss_exp := 2;
  P_los := 1.0;
  K := 8;
  target_rate_primary_user := 1.0;
  target_rate_secondary_user := 0.5;
  powerCoeff := [0.8; 0.2];
  radius_uav := 1.0;
  radius_user := 2.0
|}.

Definition no_user_config : Config := {|
  N_mc := Nat.pow 10 4;
  N_users := 0;
  M_uav := 1;
  snr_dB := py_range 10 51 2;
  path_loss_exp := 2;
  P_los := 1.0;
  K := 8;
  target_rate_primary_user := 1.0;
  target_rate_secondary_user := 0.5;
  powerCoeff := [0.8; 0.2];
  radius_uav := 1.0;
  radius_user := 2.0
|}.

Definition minus_one_K_config : Config := {|
  N_mc := Nat.pow 10 4;
  N_users := 2;
  M_uav := 1;
  snr_dB := py_range 10 51 2;
  path_loss_exp := 2;
  P_los := 1.0;
  K := -1;
  target_rate_primary_user := 1.0;
  target_rate_secondary_user := 0.5;
  powerCoeff := [0.8; 0.2];
  radius_uav := 1.0;
  radius_user := 2.0
|}.

Definition negative_los_config : Config := {|
  N_mc := Nat.pow 10 4;
  N_users := 2;
  M_uav := 1;
  snr_dB := py_range 10 51 2;
  path_loss_exp := 2;
  P_los := -1.0;
  K := 8;
  target_rate_primary_user := 1.0;
  target_rate_secondary_user := 0.5;
  powerCoeff := [0.8; 0.2];
  radius_uav := 1.0;
  radius_user := 2.0
|}.

(** ** Partial sums of the exponential series

    [exp_sum n x] is the sum of [x^k / k!] for [k] up to [n]; it brackets
    [exp] and so gives rational bounds on the logarithms of the rates. *)

Fixpoint exp_term (k : nat) (x : R) : R :=
  match k with
  | O => 1
  | S j => exp_term j x * x / INR (S j)
  end.

Fixpoint exp_sum (n : nat) (x : R) : R :=
  match n with
  | O => 1
  | S j => exp_sum j x + exp_term (S j) x
  end.

(** * Properties *)

(** ** Arrays *)

Lemma store_Some (a : list R) (i : nat) (v : R) :
  (i < length a)%nat → store a i v = Some (<[i := v]> a).
Proof. intros H. unfold store. by rewrite decide_True. Qed.

Lemma store_length (a a' : list R) (i : nat) (v : R) :
  store a i v = Some a' → length a' = length a.
Proof.
  unfold store. case_decide; [|done]. intros [= <-]. apply length_insert.
Qed.

Lemma filled_length (f : R → R) (k len : nat) (grid : list R) :
  (k ≤ len)%nat → length grid = len → length (filled f k len grid) = len.
Proof.
  intros Hk Hg. unfold filled.
  rewrite length_app, length_fmap, length_take, length_replicate. lia.
Qed.

Lemma filled_0 (f : R → R) (len : nat) (grid : list R) :
  filled f 0 len grid = np_zeros len.
Proof. unfold filled, np_zeros. rewrite take_0, Nat.sub_0_r. done. Qed.

Lemma filled_step (f : R → R) (k len : nat) (grid : list R) (g : R) :
  (k < len)%nat → length grid = len → grid !! k = Some g →
  <[k := f g]> (filled f k len grid) = filled f (S k) len grid.
Proof.
  intros Hk Hlen Hg. unfold filled.
  assert (Hlk : length (f <$> take k grid) = k).
  { rewrite length_fmap, length_take. lia. }
  rewrite insert_app_r_alt by lia.
  rewrite Hlk, Nat.sub_diag.
  replace (len - k)%nat with (S (len - S k)) by lia.
  rewrite (take_S_r _ _ _ Hg), fmap_app, <- app_assoc. done.
Qed.

Lemma filled_lookup_lt (f : R → R) (k len : nat) (grid : list R) (i : nat)
  (g : R) :
  (i < k)%nat → grid !! i = Some g → filled f k len grid !! i = Some (f g).
Proof.
  intros Hi Hg. unfold filled.
  rewrite lookup_app_l.
  - rewrite list_lookup_fmap, lookup_take_lt by done. by rewrite Hg.
  - rewrite length_fmap, length_take.
    apply lookup_lt_Some in Hg. lia.
Qed.

Lemma filled_lookup_ge (f : R → R) (k len : nat) (grid : list R) (i : nat) :
  (k ≤ length grid)%nat → (k ≤ i < len)%nat →
  filled f k len grid !! i = Some 0.
Proof.
  intros Hk Hi. unfold filled.
  rewrite lookup_app_r; rewrite length_fmap, length_take.
  - apply lookup_replicate_2. lia.
  - lia.
Qed.

(** ** The rate loop *)

Lemma store_filled (f : R → R) (k : nat) (grid : list R) (g v : R) :
  grid !! k = Some g → v = f g →
  store (filled f k (length grid) grid) k v
  = Some (filled f (S k) (length grid) grid).
Proof.
  intros Hg ->. pose proof (lookup_lt_Some _ _ _ Hg) as Hk.
  rewrite store_Some by (rewrite filled_length; lia).
  by rewrite (filled_step f k (length grid) grid g).
Qed.

Lemma store_twice (a : list R) (i : nat) (v w : R) :
  (i < length a)%nat → store (<[i := v]> a) i w = Some (<[i := w]> a).
Proof.
  intros Hi. rewrite store_Some by (by rewrite length_insert).
  by rewrite list_insert_insert_eq.
Qed.

Lemma rate_step_filled (snr_lin : list R) (channelPri channelSec p0 p1
  target : R) (rest : list R) (k : nat) (g : R) :
  snr_lin !! k = Some g →
  rate_step snr_lin channelPri channelSec (p0 :: p1 :: rest) target
    (buffers_after snr_lin channelPri channelSec p0 p1 target k) k
  = Some (buffers_after snr_lin channelPri channelSec p0 p1 target (S k)).
Proof.
  intros Hg. pose proof (lookup_lt_Some _ _ _ Hg) as Hk.
  unfold rate_step, buffers_after. cbn [sinr_primary sinr_secondary
    inst_rate_primary inst_rate_secondary].
  rewrite Hg. cbn [mbind option_bind lookup list_lookup].
  set (len := length snr_lin).
  set (fs := primary_sinr_at channelPri channelSec p0 p1 target).
  set (fr := primary_rate_at channelPri channelSec p0 p1 target).
  assert (Hls : (k < length (filled fs k len snr_lin))%nat)
    by (rewrite filled_length; lia).
  assert (Hlr : (k < length (filled fr k len snr_lin))%nat)
    by (rewrite filled_length; lia).
  rewrite (store_Some (filled fs k len snr_lin)) by done.
  cbn [mbind option_bind].
  rewrite list_lookup_insert_eq by done. cbn [mbind option_bind].
  rewrite (store_Some (filled fr k len snr_lin)) by done.
  cbn [mbind option_bind].
  rewrite list_lookup_insert_eq by done. cbn [mbind option_bind].
  fold (noma_sinr channelPri channelSec p0 p1 g).
  assert (Hsec :
    store (filled (secondary_sinr_at channelSec p1) k len snr_lin) k
      (g * channelSec * p1)
    = Some (filled (secondary_sinr_at channelSec p1) (S k) len snr_lin))
    by (by apply (store_filled _ k snr_lin g)).
  assert (Hrsec :
    store (filled (secondary_rate_at channelSec p1) k len snr_lin) k
      (ln (1 + g * channelSec * p1))
    = Some (filled (secondary_rate_at channelSec p1) (S k) len snr_lin))
    by (by apply (store_filled _ k snr_lin g)).
  assert (Hw : filled (secondary_sinr_at channelSec p1) (S k) len snr_lin !! k
               = Some (g * channelSec * p1))
    by (apply (filled_lookup_lt (secondary_sinr_at channelSec p1) (S k) len
          snr_lin k g); [lia | done]).
  case_decide as Hfb.
  - rewrite store_twice by done. cbn [mbind option_bind].
    rewrite list_lookup_insert_eq by done. cbn [mbind option_bind].
    rewrite store_twice by done. cbn [mbind option_bind].
    rewrite Hsec. cbn [mbind option_bind].
    rewrite Hw. cbn [mbind option_bind].
    rewrite Hrsec. cbn [mbind option_bind].
    assert (Efr : 0.5 * ln (1 + g * channelPri) = fr g)
      by (subst fr; unfold primary_rate_at; by rewrite decide_True).
    assert (Efs : g * channelPri = fs g)
      by (subst fs; unfold primary_sinr_at; by rewrite decide_True).
    rewrite Efr, Efs.
    by rewrite !(filled_step _ k len snr_lin g) by (done || lia).
  - cbn [mbind option_bind].
    rewrite Hsec. cbn [mbind option_bind].
    rewrite Hw. cbn [mbind option_bind].
    rewrite Hrsec. cbn [mbind option_bind].
    assert (Efr : ln (1 + noma_sinr channelPri channelSec p0 p1 g) = fr g)
      by (subst fr; unfold primary_rate_at; by rewrite decide_False).
    assert (Efs : noma_sinr channelPri channelSec p0 p1 g = fs g)
      by (subst fs; unfold primary_sinr_at; by rewrite decide_False).
    rewrite Efr, Efs.
    by rewrite !(filled_step _ k len snr_lin g) by (done || lia).
Qed.

Lemma rate_loop_from (snr_lin : list R) (channelPri channelSec p0 p1
  target : R) (rest : list R) (m k : nat) :
  (k + m ≤ length snr_lin)%nat →
  for_each (rate_step snr_lin channelPri channelSec (p0 :: p1 :: rest) target)
    (seq k m) (buffers_after snr_lin channelPri channelSec p0 p1 target k)
  = Some (buffers_after snr_lin channelPri channelSec p0 p1 target (k + m)).
Proof.
  revert k. induction m as [|m IH]; intros k Hk.
  - by rewrite Nat.add_0_r.
  - destruct (lookup_lt_is_Some_2 snr_lin k) as [g Hg]; [lia|].
    cbn [seq for_each]. rewrite (rate_step_filled _ _ _ _ _ _ _ _ g Hg).
    cbn [mbind option_bind]. rewrite IH by lia. do 2 f_equal. lia.
Qed.

Lemma snr_linear_length (cfg : Config) :
  length (snr_linear cfg) = length (snr_dB cfg).
Proof. unfold snr_linear. apply length_fmap. Qed.

Lemma rate_buffers_initial (cfg : Config) (channelPri channelSec p0 p1
  target : R) :
  rate_buffers cfg
  = buffers_after (snr_linear cfg) channelPri channelSec p0 p1 target 0.
Proof.
  unfold rate_buffers, buffers_after.
  by rewrite !filled_0, snr_linear_length.
Qed.

Lemma rate_loop_eq {A : Type} (cfg : Config) (channelPri channelSec : R)
  (snrValues : list A) (p0 p1 : R) (rest : list R) (target : R) :
  (length snrValues ≤ length (snr_dB cfg))%nat →
  rate_loop (snr_linear cfg) channelPri channelSec snrValues
    (p0 :: p1 :: rest) target (rate_buffers cfg)
  = Some (buffers_after (snr_linear cfg) channelPri channelSec p0 p1 target
            (length snrValues)).
Proof.
  intros Hn. unfold rate_loop.
  rewrite (rate_buffers_initial cfg channelPri channelSec p0 p1 target).
  by rewrite rate_loop_from by (rewrite snr_linear_length; lia).
Qed.

(** The rates the engine returns: the closed form on the first
    [length snrValues] grid points, zero on the others. *)
Lemma calculate_Instantaneous_Rate_eq {A : Type} (cfg : Config)
  (channelPri channelSec : R) (snrValues : list A) (p0 p1 : R)
  (rest : list R) (target : R) :
  (length snrValues ≤ length (snr_dB cfg))%nat →
  calculate_Instantaneous_Rate cfg channelPri channelSec snrValues
    (p0 :: p1 :: rest) target
  = Some (filled (primary_rate_at channelPri channelSec p0 p1 target)
            (length snrValues) (length (snr_dB cfg)) (snr_linear cfg),
          filled (secondary_rate_at channelSec p1)
            (length snrValues) (length (snr_dB cfg)) (snr_linear cfg)).
Proof.
  intros Hn. unfold calculate_Instantaneous_Rate.
  rewrite rate_loop_eq by done.
  cbn [mbind option_bind buffers_after inst_rate_primary inst_rate_secondary].
  by rewrite snr_linear_length.
Qed.

Lemma calculate_Instantaneous_Rate_lookup {A : Type} (cfg : Config)
  (channelPri channelSec : R) (snrValues : list A) (p0 p1 : R)
  (rest : list R) (target : R) (rate_p rate_s : list R) (sn : nat) (g : R) :
  (length snrValues ≤ length (snr_dB cfg))%nat →
  calculate_Instantaneous_Rate cfg channelPri channelSec snrValues
    (p0 :: p1 :: rest) target = Some (rate_p, rate_s) →
  (sn < length snrValues)%nat →
  snr_linear cfg !! sn = Some g →
  rate_p !! sn = Some (primary_rate_at channelPri channelSec p0 p1 target g)
  ∧ rate_s !! sn = Some (secondary_rate_at channelSec p1 g).
Proof.
  intros Hn Hcalc Hsn Hg.
  rewrite calculate_Instantaneous_Rate_eq in Hcalc by done.
  injection Hcalc as <- <-.
  split; by apply filled_lookup_lt.
Qed.

(** ** Bounds on [exp] and [ln] *)

Section ExpBounds.

Lemma exp_term_eq (k : nat) (x : R) : exp_term k x = / INR (fact k) * x ^ k.
Proof.
  induction k as [|k IH].
  - cbn. lra.
  - cbn [exp_term]. rewrite IH, fact_simpl, mult_INR.
    pose proof (INR_fact_neq_0 k). pose proof (not_0_INR (S k)).
    cbn [pow]. field. split; auto.
Qed.

Lemma exp_sum_eq (n : nat) (x : R) :
  exp_sum n x = sum_f_R0 (λ i, / INR (fact i) * x ^ i) n.
Proof.
  induction n as [|n IH].
  - cbn. lra.
  - cbn [exp_sum sum_f_R0]. by rewrite IH, exp_term_eq.
Qed.

Lemma exp_series (x : R) :
  Un_cv (λ n, sum_f_R0 (λ i, / INR (fact i) * x ^ i) n) (exp x).
Proof.
  unfold exp. destruct (exist_exp x) as [l Hl]. exact Hl.
Qed.

(** For a non-negative argument every partial sum is a lower bound. *)
Lemma exp_sum_le_exp (n : nat) (x : R) : 0 <= x → exp_sum n x <= exp x.
Proof.
  intros Hx. rewrite exp_sum_eq.
  apply sum_incr; [apply exp_series|].
  intros k. apply Rmult_le_pos.
  - left. apply Rinv_0_lt_compat, INR_fact_lt_0.
  - by apply pow_le.
Qed.

(** For an argument in [[-1, 0]] the series alternates: odd partial sums
    are lower bounds and even ones upper bounds. *)
Lemma exp_sum_alternating (N : nat) (x : R) :
  0 <= x <= 1 →
  exp_sum (S (2 * N)) (- x) <= exp (- x) <= exp_sum (2 * N) (- x).
Proof.
  intros [Hx0 Hx1].
  assert (Hsum : ∀ n, sum_f_R0 (tg_alt (λ i, x ^ i / INR (fact i))) n
                      = exp_sum n (- x)).
  { intros n. rewrite exp_sum_eq. apply sum_eq. intros i _.
    unfold tg_alt. replace (- x) with (-1 * x) by lra.
    rewrite Rpow_mult_distr. unfold Rdiv. lra. }
  rewrite <- !Hsum.
  apply alternated_series_ineq.
  - intros n. cbn [pow]. rewrite fact_simpl, mult_INR.
    pose proof (INR_fact_lt_0 n) as Hf.
    assert (Hn : 1 <= INR (S n)) by (rewrite S_INR; pose proof (pos_INR n); lra).
    assert (Hp : 0 <= x ^ n) by (by apply pow_le).
    unfold Rdiv. rewrite Rinv_mult.
    assert (Hi : 0 < / INR (fact n)) by (by apply Rinv_0_lt_compat).
    assert (Hs : 0 < / INR (S n) <= 1).
    { split; [apply Rinv_0_lt_compat; lra|].
      rewrite <- Rinv_1. apply Rinv_le_contravar; lra. }
    assert (Hq : 0 <= x ^ n * / INR (fact n)) by (apply Rmult_le_pos; lra).
    replace (x * x ^ n * (/ INR (S n) * / INR (fact n)))
      with ((x * / INR (S n)) * (x ^ n * / INR (fact n))) by ring.
    assert (Hxs : 0 <= x * / INR (S n) <= 1) by nra.
    nra.
  - apply cv_speed_pow_fact.
  - pose proof (exp_series (- x)) as Hcv.
    intros eps Heps. destruct (Hcv eps Heps) as [n0 Hn0].
    exists n0. intros n Hn. rewrite Hsum, exp_sum_eq. by apply Hn0.
Qed.

Lemma ln_le_of_exp (a b : R) : 0 < a → a <= exp b → ln a <= b.
Proof.
  intros Ha Hab. rewrite <- (ln_exp b).
  destruct Hab as [Hlt| ->]; [left; by apply ln_increasing | right; done].
Qed.

Lemma ln_ge_of_exp (a b : R) : exp b <= a → b <= ln a.
Proof.
  intros Hab. rewrite <- (ln_exp b) at 1.
  destruct Hab as [Hlt| <-]; [left; apply ln_increasing; [apply exp_pos|done]
                             | right; done].
Qed.

Lemma exp_1_gt_2 : 2 < exp 1.
Proof. pose proof (exp_ineq1 1). lra. Qed.

Lemma exp_1_bounds : 2.7 <= exp 1 <= 2.75.
Proof.
  split.
  - pose proof (exp_sum_le_exp 5 1) as H. cbn [exp_sum exp_term INR] in H.
    lra.
  - pose proof (exp_sum_alternating 2 1) as [H _]; [lra|].
    cbn [exp_sum exp_term INR Nat.mul Nat.add] in H.
    assert (He : exp (- (1)) * exp 1 = 1)
      by (rewrite <- exp_plus; replace (- (1) + 1) with 0 by lra;
          apply exp_0).
    pose proof (exp_pos 1). nra.
Qed.

Lemma exp_opp_mult (x : R) : exp (- x) * exp x = 1.
Proof.
  rewrite <- exp_plus. replace (- x + x) with 0 by lra. apply exp_0.
Qed.

Lemma exp_double (x : R) : exp (x + x) = exp x * exp x.
Proof. apply exp_plus. Qed.

(** [ln (13/3)] is 1.466 to three decimals. *)
Lemma ln_13_3_bounds : 1.4655 <= ln (13 / 3) <= 1.4665.
Proof.
  split.
  - apply ln_ge_of_exp.
    pose proof (exp_sum_alternating 3 0.73275) as [H _]; [lra|].
    cbn [exp_sum exp_term INR Nat.mul Nat.add] in H.
    assert (Hl : 0.48058 <= exp (- (0.73275))) by lra. clear H.
    pose proof (exp_double (- (0.73275))) as Hd.
    replace (- (0.73275) + - (0.73275)) with (- (1.4655)) in Hd by lra.
    pose proof (exp_opp_mult 1.4655) as Ho.
    pose proof (exp_pos 1.4655). pose proof (exp_pos (- (1.4655))).
    assert (Hf : 0.2309 <= exp (- (1.4655))) by nra.
    nra.
  - apply ln_le_of_exp; [lra|].
    pose proof (exp_sum_alternating 4 0.73325) as [_ H]; [lra|].
    cbn [exp_sum exp_term INR Nat.mul Nat.add] in H.
    assert (Hu : exp (- (0.73325)) <= 0.48035) by lra. clear H.
    pose proof (exp_double (- (0.73325))) as Hd.
    replace (- (0.73325) + - (0.73325)) with (- (1.4665)) in Hd by lra.
    pose proof (exp_opp_mult 1.4665) as Ho.
    pose proof (exp_pos 1.4665). pose proof (exp_pos (- (0.73325))).
    assert (Hf : exp (- (1.4665)) <= 0.23074) by nra.
    nra.
Qed.

(** [ln 1.2] is 0.182 to three decimals. *)
Lemma ln_1_2_bounds : 0.1815 <= ln 1.2 <= 0.1825.
Proof.
  split.
  - apply ln_ge_of_exp.
    pose proof (exp_sum_alternating 1 0.1815) as [H _]; [lra|].
    cbn [exp_sum exp_term INR Nat.mul Nat.add] in H.
    assert (Hl : 0.8339 <= exp (- (0.1815))) by lra. clear H.
    pose proof (exp_opp_mult 0.1815) as Ho.
    pose proof (exp_pos 0.1815).
    nra.
  - apply ln_le_of_exp; [lra|].
    pose proof (exp_sum_le_exp 4 0.1825) as H.
    cbn [exp_sum exp_term INR] in H. lra.
Qed.

End ExpBounds.

(** ** The grid of the script *)

Lemma default_snr_dB :
  snr_dB default_config
  = [10; 12; 14; 16; 18; 20; 22; 24; 26; 28; 30; 32; 34; 36; 38; 40; 42; 44;
     46; 48; 50]%Z.
Proof. reflexivity. Qed.

Lemma Rpower_10_1 : Rpower 10 (10 / 10) = 10.
Proof. replace (10 / 10) with 1 by lra. apply Rpower_1. lra. Qed.

Lemma Rpower_10_2 : Rpower 10 (20 / 10) = 100.
Proof.
  replace (20 / 10) with (1 + 1) by lra.
  rewrite Rpower_plus, Rpower_1 by lra. lra.
Qed.

Lemma default_snr_linear_0 : snr_linear default_config !! 0%nat = Some 10.
Proof.
  unfold snr_linear. rewrite default_snr_dB. cbn [fmap list_fmap lookup
    list_lookup]. by rewrite Rpower_10_1.
Qed.

Lemma default_snr_linear_5 : snr_linear default_config !! 5%nat = Some 100.
Proof.
  unfold snr_linear. rewrite default_snr_dB. cbn [fmap list_fmap lookup
    list_lookup]. by rewrite Rpower_10_2.
Qed.

(** Every grid value is positive, whatever [snr_dB] holds. *)
Lemma snr_linear_pos (cfg : Config) (sn : nat) (g : R) :
  snr_linear cfg !! sn = Some g → 0 < g.
Proof.
  unfold snr_linear. rewrite list_lookup_fmap.
  destruct (snr_dB cfg !! sn) as [d|]; [|done].
  intros [= <-]. unfold Rpower. apply exp_pos.
Qed.

(** ** The rate engine: fallback rule, secondary rate, unused argument *)

(** C3: at every grid point [sn] the engine processes, with grid value [g],
    a NOMA primary rate [ln (1 + g*gain_p*a_p / (g*gain_s*a_s + 1))] below
    the target makes the returned primary rate the OMA rate
    [0.5 * ln (1 + g*gain_p)], and otherwise the NOMA rate is returned.  The
    decision is taken per grid point: the entry at [sn] is the same under any
    other grid and any other measured argument that has value [g] at [sn]. *)
Theorem oma_fallback_per_grid_point {A : Type} (cfg : Config)
  (channelPri channelSec : R) (snrValues : list A) (p0 p1 : R)
  (rest : list R) (target : R) (sn : nat) (g : R) :
  (length snrValues ≤ length (snr_dB cfg))%nat →
  (sn < length snrValues)%nat →
  snr_linear cfg !! sn = Some g →
  ∃ rate_p rate_s : list R,
    calculate_Instantaneous_Rate cfg channelPri channelSec snrValues
      (p0 :: p1 :: rest) target = Some (rate_p, rate_s)
    ∧ (ln (1 + g * channelPri * p0 / (g * channelSec * p1 + 1)) < target →
       rate_p !! sn = Some (0.5 * ln (1 + g * channelPri)))
    ∧ (¬ ln (1 + g * channelPri * p0 / (g * channelSec * p1 + 1)) < target →
       rate_p !! sn
       = Some (ln (1 + g * channelPri * p0 / (g * channelSec * p1 + 1))))
    ∧ (∀ (B : Type) (cfg' : Config) (snrValues' : list B)
         (rate_p' rate_s' : list R),
         (length snrValues' ≤ length (snr_dB cfg'))%nat →
         (sn < length snrValues')%nat →
         snr_linear cfg' !! sn = Some g →
         calculate_Instantaneous_Rate cfg' channelPri channelSec snrValues'
           (p0 :: p1 :: rest) target = Some (rate_p', rate_s') →
         rate_p' !! sn = rate_p !! sn).
Proof.
  intros Hn Hsn Hg.
  eexists _, _. split; [by apply calculate_Instantaneous_Rate_eq|].
  rewrite (filled_lookup_lt _ _ _ _ sn g) by done.
  unfold primary_rate_at, noma_sinr.
  repeat split.
  - intros Hlt. by rewrite decide_True.
  - intros Hge. by rewrite decide_False.
  - intros B cfg' snrValues' rate_p' rate_s' Hn' Hsn' Hg' Hcalc.
    by destruct (calculate_Instantaneous_Rate_lookup cfg' channelPri
      channelSec snrValues' p0 p1 rest target rate_p' rate_s' sn g Hn' Hcalc
      Hsn' Hg') as [-> _].
Qed.

Lemma oma_fallback_per_grid_point_witness :
  ∃ rate_p rate_s : list R,
    calculate_Instantaneous_Rate default_config 0.5 0.1
      (snr_dB default_config) [0.8; 0.2] 1.0 = Some (rate_p, rate_s)
    ∧ (ln (1 + Rpower 10 (10 / 10) * 0.5 * 0.8
                / (Rpower 10 (10 / 10) * 0.1 * 0.2 + 1)) < 1.0 →
       rate_p !! 0%nat = Some (0.5 * ln (1 + Rpower 10 (10 / 10) * 0.5)))
    ∧ (¬ ln (1 + Rpower 10 (10 / 10) * 0.5 * 0.8
                  / (Rpower 10 (10 / 10) * 0.1 * 0.2 + 1)) < 1.0 →
       rate_p !! 0%nat
       = Some (ln (1 + Rpower 10 (10 / 10) * 0.5 * 0.8
                       / (Rpower 10 (10 / 10) * 0.1 * 0.2 + 1))))
    ∧ (∀ (B : Type) (cfg' : Config) (snrValues' : list B)
         (rate_p' rate_s' : list R),
         (length snrValues' ≤ length (snr_dB cfg'))%nat →
         (0 < length snrValues')%nat →
         snr_linear cfg' !! 0%nat = Some (Rpower 10 (10 / 10)) →
         calculate_Instantaneous_Rate cfg' 0.5 0.1 snrValues'
           [0.8; 0.2] 1.0 = Some (rate_p', rate_s') →
         rate_p' !! 0%nat = rate_p !! 0%nat).
Proof.
  apply (oma_fallback_per_grid_point default_config 0.5 0.1
           (snr_dB default_config) 0.8 0.2 [] 1.0 0 (Rpower 10 (10 / 10))).
  - simpl. lia.
  - simpl. lia.
  - reflexivity.
Defined.

(** C5: at every grid point the engine processes the secondary user's rate
    is [ln (1 + g*gain_s*a_s)], whichever branch the primary user took. *)
Theorem secondary_rate_noma_only {A : Type} (cfg : Config)
  (channelPri channelSec : R) (snrValues : list A) (p0 p1 : R)
  (rest : list R) (target : R) (sn : nat) (g : R) :
  (length snrValues ≤ length (snr_dB cfg))%nat →
  (sn < length snrValues)%nat →
  snr_linear cfg !! sn = Some g →
  ∃ rate_p rate_s : list R,
    calculate_Instantaneous_Rate cfg channelPri channelSec snrValues
      (p0 :: p1 :: rest) target = Some (rate_p, rate_s)
    ∧ rate_s !! sn = Some (ln (1 + g * channelSec * p1)).
Proof.
  intros Hn Hsn Hg.
  eexists _, _. split; [by apply calculate_Instantaneous_Rate_eq|].
  by rewrite (filled_lookup_lt _ _ _ _ sn g).
Qed.

Lemma secondary_rate_noma_only_witness :
  ∃ rate_p rate_s : list R,
    calculate_Instantaneous_Rate default_config 0.5 0.1
      (snr_dB default_config) [0.8; 0.2] 1.0 = Some (rate_p, rate_s)
    ∧ rate_s !! 5%nat = Some (ln (1 + Rpower 10 (20 / 10) * 0.1 * 0.2)).
Proof.
  apply (secondary_rate_noma_only default_config 0.5 0.1
           (snr_dB default_config) 0.8 0.2 [] 1.0 5 (Rpower 10 (20 / 10))).
  - simpl. lia.
  - simpl. lia.
  - reflexivity.
Defined.

(** C9: the engine only measures [snrValues]: two arguments of equal length,
    of any element types, give the same result, the grid values being read
    from the module-level [snr_linear].  In particular the call of line 218,
    which passes [snr_dB], returns what passing [snr_linear] would. *)
Theorem snrValues_only_measured {A B : Type} (cfg : Config)
  (channelPri channelSec : R) (snrValues : list A) (snrValues' : list B)
  (power : list R) (target : R) :
  length snrValues = length snrValues' →
  calculate_Instantaneous_Rate cfg channelPri channelSec snrValues power
    target
  = calculate_Instantaneous_Rate cfg channelPri channelSec snrValues' power
      target
  ∧ calculate_Instantaneous_Rate cfg channelPri channelSec (snr_dB cfg)
      power target
    = calculate_Instantaneous_Rate cfg channelPri channelSec
        (snr_linear cfg) power target.
Proof.
  intros Hlen. unfold calculate_Instantaneous_Rate, rate_loop.
  by rewrite Hlen, snr_linear_length.
Qed.

Lemma snrValues_only_measured_witness :
  calculate_Instantaneous_Rate default_config 0.5 0.1 [10%Z; 12%Z]
    [0.8; 0.2] 1.0
  = calculate_Instantaneous_Rate default_config 0.5 0.1 [true; false]
      [0.8; 0.2] 1.0
  ∧ calculate_Instantaneous_Rate default_config 0.5 0.1
      (snr_dB default_config) [0.8; 0.2] 1.0
    = calculate_Instantaneous_Rate default_config 0.5 0.1
        (snr_linear default_config) [0.8; 0.2] 1.0.
Proof.
  apply (snrValues_only_measured default_config 0.5 0.1 [10%Z; 12%Z]
           [true; false] [0.8; 0.2] 1.0).
  reflexivity.
Defined.

(** ** The concrete scenario *)

(** C4: gains 0.5 and 0.1, power split (0.8, 0.2), target 1.0, at the grid
    point of value 10 (the first point of the script's grid).  The engine
    keeps the NOMA branch: the primary SINR it stores is 4/1.2 (not the OMA
    value 10*0.5), the primary rate is [ln (1 + 4/1.2)], which is 1.466 to
    three decimals and at least the target; the secondary SINR is 0.2 and the
    secondary rate is [ln 1.2], which is 0.182 to three decimals. *)
Theorem concrete_scenario :
  ∃ b : RateBuffers,
    rate_loop (snr_linear default_config) 0.5 0.1 (snr_dB default_config)
      [0.8; 0.2] 1.0 (rate_buffers default_config) = Some b
    ∧ calculate_Instantaneous_Rate default_config 0.5 0.1
        (snr_dB default_config) [0.8; 0.2] 1.0
      = Some (inst_rate_primary b, inst_rate_secondary b)
    ∧ snr_linear default_config !! 0%nat = Some 10
    ∧ sinr_primary b !! 0%nat = Some (10 * 0.5 * 0.8 / (10 * 0.1 * 0.2 + 1))
    ∧ 10 * 0.5 * 0.8 / (10 * 0.1 * 0.2 + 1) = 4 / 1.2
    ∧ inst_rate_primary b !! 0%nat = Some (ln (1 + 4 / 1.2))
    ∧ Rabs (ln (1 + 4 / 1.2) - 1.466) <= 0.0005
    ∧ 1.0 <= ln (1 + 4 / 1.2)
    ∧ sinr_secondary b !! 0%nat = Some (10 * 0.1 * 0.2)
    ∧ 10 * 0.1 * 0.2 = 0.2
    ∧ inst_rate_secondary b !! 0%nat = Some (ln 1.2)
    ∧ Rabs (ln 1.2 - 0.182) <= 0.0005.
Proof.
  assert (Hlen : (length (snr_dB default_config)
                  ≤ length (snr_dB default_config))%nat) by done.
  assert (Hv : 10 * 0.5 * 0.8 / (10 * 0.1 * 0.2 + 1) = 4 / 1.2) by lra.
  assert (H133 : 1 + 4 / 1.2 = 13 / 3) by lra.
  pose proof ln_13_3_bounds as [Hlo Hhi].
  pose proof ln_1_2_bounds as [Hlo' Hhi'].
  assert (Hnofb : ¬ ln (1 + noma_sinr 0.5 0.1 0.8 0.2 10) < 1.0).
  { unfold noma_sinr. rewrite Hv, H133. lra. }
  exists (buffers_after (snr_linear default_config) 0.5 0.1 0.8 0.2 1.0
            (length (snr_dB default_config))).
  split; [by apply rate_loop_eq|].
  split.
  { unfold calculate_Instantaneous_Rate. by rewrite rate_loop_eq. }
  split; [apply default_snr_linear_0|].
  cbn [buffers_after sinr_primary sinr_secondary inst_rate_primary
       inst_rate_secondary].
  rewrite !(filled_lookup_lt _ _ _ _ 0 10)
    by (apply default_snr_linear_0 || (simpl; lia)).
  unfold primary_sinr_at, primary_rate_at, secondary_sinr_at,
    secondary_rate_at.
  rewrite !decide_False by done. unfold noma_sinr.
  split_and!.
  - done.
  - done.
  - by rewrite Hv.
  - rewrite H133. apply Rabs_le. lra.
  - rewrite H133. lra.
  - done.
  - lra.
  - f_equal. f_equal. lra.
  - apply Rabs_le. lra.
Qed.

(** ** Monotonicity in the grid value *)

Lemma ln_monotone (x y : R) : 0 < x → x <= y → ln x <= ln y.
Proof.
  intros Hx [Hlt| ->]; [left; by apply ln_increasing | right; done].
Qed.

Lemma ln_lt_exp (a t : R) : 0 < a → (ln a < t ↔ a < exp t).
Proof.
  intros Ha. split; intros H.
  - apply ln_lt_inv; [done | apply exp_pos | by rewrite ln_exp].
  - rewrite <- (ln_exp t). by apply ln_increasing.
Qed.

Lemma noma_sinr_nonneg (channelPri channelSec p0 p1 g : R) :
  0 <= channelPri → 0 <= channelSec → 0 <= p0 → 0 <= p1 → 0 < g →
  0 <= noma_sinr channelPri channelSec p0 p1 g.
Proof.
  intros Hp Hs H0 H1 Hg. unfold noma_sinr.
  assert (0 <= g * channelPri * p0) by (repeat apply Rmult_le_pos; lra).
  assert (0 <= g * channelSec * p1) by (repeat apply Rmult_le_pos; lra).
  apply Rmult_le_pos; [done|]. left. apply Rinv_0_lt_compat. lra.
Qed.

Lemma noma_sinr_monotone (channelPri channelSec p0 p1 g g' : R) :
  0 <= channelPri → 0 <= channelSec → 0 <= p0 → 0 <= p1 →
  0 < g → g <= g' →
  noma_sinr channelPri channelSec p0 p1 g
  <= noma_sinr channelPri channelSec p0 p1 g'.
Proof.
  intros Hp Hs H0 H1 Hg Hgg'. unfold noma_sinr.
  assert (Ha : 0 <= channelPri * p0) by (by apply Rmult_le_pos).
  assert (Hb : 0 <= channelSec * p1) by (by apply Rmult_le_pos).
  set (a := channelPri * p0) in *. set (b := channelSec * p1) in *.
  replace (g * channelPri * p0) with (g * a) by (subst a; ring).
  replace (g' * channelPri * p0) with (g' * a) by (subst a; ring).
  replace (g * channelSec * p1) with (g * b) by (subst b; ring).
  replace (g' * channelSec * p1) with (g' * b) by (subst b; ring).
  assert (Hd : 0 < g * b + 1) by nra.
  assert (Hd' : 0 < g' * b + 1) by nra.
  apply Rmult_le_reg_r with ((g * b + 1) * (g' * b + 1)); [nra|].
  replace (g * a / (g * b + 1) * ((g * b + 1) * (g' * b + 1)))
    with (g * a * (g' * b + 1)) by (field; lra).
  replace (g' * a / (g' * b + 1) * ((g * b + 1) * (g' * b + 1)))
    with (g' * a * (g * b + 1)) by (field; lra).
  nra.
Qed.

Lemma secondary_rate_at_monotone (channelSec p1 g g' : R) :
  0 <= channelSec → 0 <= p1 → 0 < g → g <= g' →
  secondary_rate_at channelSec p1 g <= secondary_rate_at channelSec p1 g'.
Proof.
  intros Hs H1 Hg Hgg'. unfold secondary_rate_at.
  assert (0 <= channelSec * p1) by (by apply Rmult_le_pos).
  apply ln_monotone; nra.
Qed.

(** Two grid points on the same branch. *)
Lemma primary_rate_at_same_branch (channelPri channelSec p0 p1 target g g'
  : R) :
  0 <= channelPri → 0 <= channelSec → 0 <= p0 → 0 <= p1 →
  0 < g → g <= g' →
  (ln (1 + noma_sinr channelPri channelSec p0 p1 g) < target
   ↔ ln (1 + noma_sinr channelPri channelSec p0 p1 g') < target) →
  primary_rate_at channelPri channelSec p0 p1 target g
  <= primary_rate_at channelPri channelSec p0 p1 target g'.
Proof.
  intros Hp Hs H0 H1 Hg Hgg' Hsame. unfold primary_rate_at.
  pose proof (noma_sinr_nonneg channelPri channelSec p0 p1 g Hp Hs H0 H1 Hg).
  pose proof (noma_sinr_monotone channelPri channelSec p0 p1 g g'
                Hp Hs H0 H1 Hg Hgg').
  destruct (decide (ln (1 + noma_sinr channelPri channelSec p0 p1 g)
                    < target)) as [Hfb|Hfb].
  - rewrite decide_True by (by apply Hsame).
    assert (ln (1 + g * channelPri) <= ln (1 + g' * channelPri))
      by (apply ln_monotone; nra).
    lra.
  - rewrite decide_False by (intros Hfb'; by apply Hfb, Hsame).
    apply ln_monotone; lra.
Qed.

(** A lower grid point that keeps NOMA forces NOMA on every higher one. *)
Lemma noma_branch_upward (channelPri channelSec p0 p1 target g g' : R) :
  0 <= channelPri → 0 <= channelSec → 0 <= p0 → 0 <= p1 →
  0 < g → g <= g' →
  ¬ ln (1 + noma_sinr channelPri channelSec p0 p1 g) < target →
  ¬ ln (1 + noma_sinr channelPri channelSec p0 p1 g') < target.
Proof.
  intros Hp Hs H0 H1 Hg Hgg' Hno Hfb. apply Hno.
  pose proof (noma_sinr_nonneg channelPri channelSec p0 p1 g Hp Hs H0 H1 Hg).
  pose proof (noma_sinr_monotone channelPri channelSec p0 p1 g g'
                Hp Hs H0 H1 Hg Hgg').
  eapply Rle_lt_trans; [|exact Hfb]. apply ln_monotone; lra.
Qed.

(** A fallback rate never exceeds the target when the secondary share is at
    most [1 / (1 + exp target)]. *)
Lemma oma_rate_le_target (channelPri channelSec p0 p1 target g : R) :
  0 <= channelSec → channelSec <= channelPri → 0 <= p0 → 0 <= p1 →
  p0 + p1 = 1 → p1 * (1 + exp target) <= 1 → 0 < g →
  ln (1 + noma_sinr channelPri channelSec p0 p1 g) < target →
  0.5 * ln (1 + g * channelPri) <= target.
Proof.
  intros Hs Hsp H0 H1 Hsum Hshare Hg Hfb.
  assert (Hp : 0 <= channelPri) by lra.
  pose proof (noma_sinr_nonneg channelPri channelSec p0 p1 g Hp Hs H0 H1 Hg)
    as Hnn.
  assert (Ht : 0 <= target).
  { pose proof (ln_monotone 1 (1 + noma_sinr channelPri channelSec p0 p1 g))
      as Hl. rewrite ln_1 in Hl. lra. }
  apply ln_lt_exp in Hfb; [|lra].
  set (E := exp target) in *.
  assert (HE : 1 <= E).
  { subst E. rewrite <- exp_0. destruct Ht as [Ht| <-]; [|lra].
    left. by apply exp_increasing. }
  set (x := g * channelPri).
  assert (Hx : 0 <= x) by (subst x; nra).
  assert (Hy : 0 <= g * channelSec <= x) by (subst x; nra).
  set (y := g * channelSec) in *.
  assert (Hden : 0 < y * p1 + 1) by nra.
  assert (Hsinr : (1 + noma_sinr channelPri channelSec p0 p1 g) * (y * p1 + 1)
                  = y * p1 + 1 + x * p0).
  { unfold noma_sinr. fold x. subst y. field. lra. }
  (* 1 + x <= (1 + sinr) * (1 + p1 * x) < E * (1 + p1 * x) *)
  assert (Hu : 1 + x < E * (1 + p1 * x)).
  { assert (1 + x <= (1 + noma_sinr channelPri channelSec p0 p1 g)
                     * (1 + p1 * x)).
    { assert (Hyx : (1 + noma_sinr channelPri channelSec p0 p1 g)
                    * (y * p1 + 1)
                    <= (1 + noma_sinr channelPri channelSec p0 p1 g)
                       * (1 + p1 * x)) by (apply Rmult_le_compat_l; nra).
      assert (x * (p0 + p1) = x) by (rewrite Hsum; ring).
      nra. }
    assert ((1 + noma_sinr channelPri channelSec p0 p1 g) * (1 + p1 * x)
            < E * (1 + p1 * x)) by (apply Rmult_lt_compat_r; nra).
    lra. }
  assert (Ha : 0 < 1 - p1 * E) by nra.
  assert (Hc : 1 - p1 <= E * (1 - p1 * E)) by nra.
  assert (Hsq : 1 + x <= E * E).
  { assert ((1 + x) * (1 - p1 * E) < E * (1 - p1)) by nra.
    assert (E * (1 - p1) <= E * E * (1 - p1 * E)) by nra.
    nra. }
  assert (Hln : ln (1 + x) <= ln (E * E)) by (apply ln_monotone; lra).
  rewrite ln_mult in Hln by lra. subst E. rewrite ln_exp in Hln. lra.
Qed.

Lemma primary_rate_at_monotone (channelPri channelSec p0 p1 target g g' : R) :
  0 <= channelSec → channelSec <= channelPri → 0 <= p0 → 0 <= p1 →
  p0 + p1 = 1 → p1 * (1 + exp target) <= 1 → 0 < g → g <= g' →
  primary_rate_at channelPri channelSec p0 p1 target g
  <= primary_rate_at channelPri channelSec p0 p1 target g'.
Proof.
  intros Hs Hsp H0 H1 Hsum Hshare Hg Hgg'.
  assert (Hp : 0 <= channelPri) by lra.
  destruct (decide (ln (1 + noma_sinr channelPri channelSec p0 p1 g) < target))
    as [Hfb|Hfb];
  destruct (decide (ln (1 + noma_sinr channelPri channelSec p0 p1 g')
                    < target)) as [Hfb'|Hfb'].
  - by apply primary_rate_at_same_branch.
  - pose proof (oma_rate_le_target channelPri channelSec p0 p1 target g
                  Hs Hsp H0 H1 Hsum Hshare Hg Hfb).
    unfold primary_rate_at. rewrite decide_True, decide_False by done. lra.
  - by destruct (noma_branch_upward channelPri channelSec p0 p1 target g g').
  - by apply primary_rate_at_same_branch.
Qed.

(** C2, as amended: over non-negative gains and power coefficients the
    secondary rate is non-decreasing in the grid value; the primary rate is
    non-decreasing between two grid points on which the engine takes the same
    branch; and it is non-decreasing between any two grid points when the
    gains are ordered, the split sums to one and the secondary share is at
    most [1 / (1 + exp target)], as the script's split (0.8, 0.2) with target
    1.0 is. *)
Theorem rates_monotone_in_snr {A : Type} (cfg : Config)
  (channelPri channelSec : R) (snrValues : list A) (p0 p1 : R)
  (rest : list R) (target : R) (i j : nat) (gi gj : R) :
  (length snrValues ≤ length (snr_dB cfg))%nat →
  (i < length snrValues)%nat → (j < length snrValues)%nat →
  snr_linear cfg !! i = Some gi → snr_linear cfg !! j = Some gj →
  gi <= gj →
  0 <= channelPri → 0 <= channelSec → 0 <= p0 → 0 <= p1 →
  ∃ (rate_p rate_s : list R) (pi pj si sj : R),
    calculate_Instantaneous_Rate cfg channelPri channelSec snrValues
      (p0 :: p1 :: rest) target = Some (rate_p, rate_s)
    ∧ rate_p !! i = Some pi ∧ rate_p !! j = Some pj
    ∧ rate_s !! i = Some si ∧ rate_s !! j = Some sj
    ∧ si <= sj
    ∧ ((ln (1 + gi * channelPri * p0 / (gi * channelSec * p1 + 1)) < target
        ↔ ln (1 + gj * channelPri * p0 / (gj * channelSec * p1 + 1)) < target)
       → pi <= pj)
    ∧ (channelSec <= channelPri → p0 + p1 = 1 →
       p1 * (1 + exp target) <= 1 → pi <= pj).
Proof.
  intros Hn Hi Hj Hgi Hgj Hle Hp Hs H0 H1.
  pose proof (snr_linear_pos cfg i gi Hgi) as Hpos.
  eexists _, _, _, _, _, _.
  split; [by apply calculate_Instantaneous_Rate_eq|].
  split; [by apply (filled_lookup_lt _ _ _ _ i gi)|].
  split; [by apply (filled_lookup_lt _ _ _ _ j gj)|].
  split; [by apply (filled_lookup_lt _ _ _ _ i gi)|].
  split; [by apply (filled_lookup_lt _ _ _ _ j gj)|].
  split; [by apply secondary_rate_at_monotone|].
  split.
  - intros Hsame. by apply primary_rate_at_same_branch.
  - intros Hsp Hsum Hshare. by apply primary_rate_at_monotone.
Qed.

Lemma rates_monotone_in_snr_witness :
  ∃ (rate_p rate_s : list R) (pi pj si sj : R),
    calculate_Instantaneous_Rate default_config 0.5 0.1
      (snr_dB default_config) [0.8; 0.2] 1.0 = Some (rate_p, rate_s)
    ∧ rate_p !! 0%nat = Some pi ∧ rate_p !! 5%nat = Some pj
    ∧ rate_s !! 0%nat = Some si ∧ rate_s !! 5%nat = Some sj
    ∧ si <= sj
    ∧ ((ln (1 + 10 * 0.5 * 0.8 / (10 * 0.1 * 0.2 + 1)) < 1.0
        ↔ ln (1 + 100 * 0.5 * 0.8 / (100 * 0.1 * 0.2 + 1)) < 1.0)
       → pi <= pj)
    ∧ (0.1 <= 0.5 → 0.8 + 0.2 = 1 → 0.2 * (1 + exp 1.0) <= 1 → pi <= pj).
Proof.
  apply (rates_monotone_in_snr default_config 0.5 0.1
           (snr_dB default_config) 0.8 0.2 [] 1.0 0 5 10 100).
  - simpl. lia.
  - simpl. lia.
  - simpl. lia.
  - apply default_snr_linear_0.
  - apply default_snr_linear_5.
  - lra.
  - lra.
  - lra.
  - lra.
  - lra.
Defined.

(** The script's split meets the share condition of the amended C2. *)
Lemma default_share_condition : 0.2 * (1 + exp 1.0) <= 1.
Proof.
  replace 1.0 with 1 by lra. pose proof exp_le_3. lra.
Qed.

(** C2 fails as stated: with gains 1 and 0.5, the split (0.5, 0.5) and the
    script's target 1.0, the engine falls back to OMA at the grid value 10
    and returns [0.5 * ln 11], keeps NOMA at the grid value 100 and returns
    [ln (1 + 50/26)], which is smaller. *)
Lemma rates_monotone_counterexample :
  ∃ (rate_p rate_s : list R) (pi pj : R),
    calculate_Instantaneous_Rate default_config 1 0.5
      (snr_dB default_config) [0.5; 0.5] 1.0 = Some (rate_p, rate_s)
    ∧ snr_linear default_config !! 0%nat = Some 10
    ∧ snr_linear default_config !! 5%nat = Some 100
    ∧ 10 <= 100
    ∧ rate_p !! 0%nat = Some pi ∧ rate_p !! 5%nat = Some pj
    ∧ pi = 0.5 * ln 11 ∧ pj = ln (1 + 50 / 26)
    ∧ pj < pi.
Proof.
  pose proof exp_1_bounds as [He1 He2].
  assert (Hfb : ln (1 + noma_sinr 1 0.5 0.5 0.5 10) < 1.0).
  { apply ln_lt_exp; unfold noma_sinr; [lra|].
    replace 1.0 with 1 by lra. lra. }
  assert (Hno : ¬ ln (1 + noma_sinr 1 0.5 0.5 0.5 100) < 1.0).
  { intros H. apply ln_lt_exp in H; unfold noma_sinr in *; [|lra].
    replace 1.0 with 1 in H by lra. lra. }
  eexists _, _, _, _.
  split; [by apply calculate_Instantaneous_Rate_eq|].
  split; [apply default_snr_linear_0|].
  split; [apply default_snr_linear_5|].
  split; [lra|].
  split; [apply (filled_lookup_lt _ _ _ _ 0 10);
          [simpl; lia | apply default_snr_linear_0]|].
  split; [apply (filled_lookup_lt _ _ _ _ 5 100);
          [simpl; lia | apply default_snr_linear_5]|].
  unfold primary_rate_at. rewrite decide_True, decide_False by done.
  unfold noma_sinr.
  split; [f_equal; f_equal; lra|].
  split; [f_equal; lra|].
  replace (1 + 100 * 1 * 0.5 / (100 * 0.5 * 0.5 + 1)) with (38 / 13) by lra.
  replace (1 + 10 * 1) with 11 by lra.
  assert (Hsq : ln (38 / 13) + ln (38 / 13) < ln 11).
  { rewrite <- ln_mult by lra. apply ln_increasing; lra. }
  lra.
Qed.

(** ** Two-dimensional arrays *)

Lemma matrix_shape_row (rows cols : nat) (m : list (list R)) (i : nat)
  (row : list R) :
  matrix_shape rows cols m → m !! i = Some row → length row = cols.
Proof.
  intros [_ Hall] Hrow. by apply (Forall_lookup_1 _ _ _ _ Hall Hrow).
Qed.

Lemma matrix_shape_lookup (rows cols : nat) (m : list (list R)) (i : nat) :
  matrix_shape rows cols m → (i < rows)%nat →
  ∃ row, m !! i = Some row ∧ length row = cols.
Proof.
  intros Hm Hi. destruct (lookup_lt_is_Some_2 m i) as [row Hrow].
  { destruct Hm as [-> _]. done. }
  exists row. split; [done|]. by eapply matrix_shape_row.
Qed.

Lemma matrix_shape_insert (rows cols : nat) (m : list (list R)) (i : nat)
  (row : list R) :
  matrix_shape rows cols m → length row = cols →
  matrix_shape rows cols (<[i := row]> m).
Proof.
  intros [Hlen Hall] Hrow. split; [by rewrite length_insert|].
  by apply Forall_insert.
Qed.

Lemma np_zeros2_shape (rows cols : nat) :
  matrix_shape rows cols (np_zeros2 rows cols).
Proof.
  split; [apply length_replicate|].
  apply Forall_replicate. apply length_replicate.
Qed.

Lemma overwritten_0 (vals old : list R) : overwritten vals old 0 = old.
Proof. unfold overwritten. by rewrite take_0, drop_0. Qed.

Lemma overwritten_all (vals old : list R) :
  length vals = length old → overwritten vals old (length old) = vals.
Proof.
  intros Hlen. unfold overwritten.
  rewrite drop_all, app_nil_r, <- Hlen. apply firstn_all.
Qed.

Lemma overwritten_length (vals old : list R) (k : nat) :
  length vals = length old → length (overwritten vals old k) = length old.
Proof.
  intros Hlen. unfold overwritten.
  rewrite length_app, length_take, length_drop. lia.
Qed.

Lemma overwritten_step (vals old : list R) (k : nat) (v : R) :
  length vals = length old → vals !! k = Some v →
  <[k := v]> (overwritten vals old k) = overwritten vals old (S k).
Proof.
  intros Hlen Hv. pose proof (lookup_lt_Some _ _ _ Hv) as Hk.
  unfold overwritten.
  assert (Hlk : length (take k vals) = k) by (rewrite length_take; lia).
  rewrite insert_app_r_alt by lia. rewrite Hlk, Nat.sub_diag.
  destruct (lookup_lt_is_Some_2 old k) as [o Ho]; [lia|].
  rewrite (drop_S _ _ _ Ho). cbn [insert list_insert].
  rewrite (take_S_r _ _ _ Hv), <- app_assoc. done.
Qed.

Lemma mset_overwritten (m : list (list R)) (mc k : nat)
  (vals old : list R) (v : R) :
  (mc < length m)%nat → length vals = length old → vals !! k = Some v →
  mset (<[mc := overwritten vals old k]> m) mc k v
  = Some (<[mc := overwritten vals old (S k)]> m).
Proof.
  intros Hmc Hlen Hv. pose proof (lookup_lt_Some _ _ _ Hv) as Hk.
  unfold mset. rewrite list_lookup_insert_eq by done.
  cbn [mbind option_bind].
  rewrite store_Some by (rewrite overwritten_length; lia).
  cbn [mbind option_bind].
  by rewrite list_insert_insert_eq, (overwritten_step vals old k v).
Qed.

Lemma mget_lookup (m : list (list R)) (i j : nat) (row : list R) :
  m !! i = Some row → mget m i j = row !! j.
Proof. intros Hrow. unfold mget. by rewrite Hrow. Qed.

(** The short-circuit [or] of line 223 is the disjunction of the two
    comparisons. *)
Lemma system_outage_or (cfg : Config) (rate_p rate_s : R) :
  (if (if decide (rate_p < target_rate_primary_user cfg) then true
       else bool_decide (rate_s < target_rate_secondary_user cfg))
   then 1 else 0)
  = system_outage cfg rate_p rate_s.
Proof.
  unfold system_outage.
  destruct (decide (rate_p < target_rate_primary_user cfg)) as [Hp|Hp].
  - rewrite decide_True; [done | by left].
  - destruct (decide (rate_s < target_rate_secondary_user cfg)) as [Hs|Hs].
    + rewrite bool_decide_eq_true_2 by done.
      rewrite decide_True; [done | by right].
    + rewrite bool_decide_eq_false_2 by done.
      rewrite decide_False; [done | by intros [?|?]].
Qed.

(** ** The outage loop of one trial *)

Section OutageLoop.

Variables (cfg : Config) (mc rows cols : nat) (st : Stats) (rp rs : list R).
Hypothesis Hshape : stats_shape rows cols st.
Hypothesis Hmc : (mc < rows)%nat.
Hypothesis Hrp : instantaneous_rate_primary st !! mc = Some rp.
Hypothesis Hrs : instantaneous_rate_secondary st !! mc = Some rs.

Lemma rate_rows_length : length rp = cols ∧ length rs = cols.
Proof.
  destruct Hshape as (_ & _ & _ & _ & Hs & Hp).
  split.
  - exact (matrix_shape_row rows cols _ mc rp Hp Hrp).
  - exact (matrix_shape_row rows cols _ mc rs Hs Hrs).
Qed.

Lemma outage_row_step (vals : list R) (m : list (list R)) (k : nat) (v : R) :
  matrix_shape rows cols m → length vals = cols → vals !! k = Some v →
  mset (match m !! mc with
        | Some old => <[mc := overwritten vals old k]> m
        | None => m
        end) mc k v
  = Some (match m !! mc with
          | Some old => <[mc := overwritten vals old (S k)]> m
          | None => m
          end).
Proof.
  intros Hm Hlen Hv.
  destruct (matrix_shape_lookup rows cols m mc Hm Hmc) as (old & -> & Hold).
  apply mset_overwritten; [|lia|done]. destruct Hm as [-> _]. done.
Qed.

Lemma outage_step_state (k : nat) :
  (k < cols)%nat →
  outage_step cfg mc (outage_state cfg mc st rp rs k) k
  = Some (outage_state cfg mc st rp rs (S k)).
Proof.
  intros Hk. destruct rate_rows_length as [Hlp Hls].
  destruct Hshape as (Hsys & Hsec & Hpri & Havg & _ & _).
  destruct (lookup_lt_is_Some_2 rp k) as [a Ha]; [lia|].
  destruct (lookup_lt_is_Some_2 rs k) as [b Hb]; [lia|].
  unfold outage_step, outage_state.
  cbn [out_probability_system out_probability_secondary_user
       out_probability_primary_user average_rate
       instantaneous_rate_secondary instantaneous_rate_primary].
  rewrite !(mget_lookup _ mc k rp Hrp), !(mget_lookup _ mc k rs Hrs), Ha, Hb.
  cbn [mbind option_bind].
  assert (Hin : (if decide (a < target_rate_primary_user cfg) then Some true
                 else Some (bool_decide
                              (b < target_rate_secondary_user cfg)))
                = Some (if decide (a < target_rate_primary_user cfg) then true
                        else bool_decide
                               (b < target_rate_secondary_user cfg)))
    by (by case_decide).
  rewrite Hin. cbn [mbind option_bind]. rewrite system_outage_or.
  rewrite (outage_row_step (zip_with (system_outage cfg) rp rs))
    by (done || (rewrite length_zip_with; lia)
        || (rewrite lookup_zip_with, Ha; cbn; by rewrite Hb)).
  cbn [mbind option_bind].
  rewrite (outage_row_step (primary_outage cfg <$> rp))
    by (done || (rewrite length_fmap; lia)
        || (by rewrite list_lookup_fmap, Ha)).
  cbn [mbind option_bind].
  rewrite (outage_row_step (secondary_outage cfg <$> rs))
    by (done || (rewrite length_fmap; lia)
        || (by rewrite list_lookup_fmap, Hb)).
  cbn [mbind option_bind].
  rewrite (outage_row_step (zip_with average_of rp rs))
    by (done || (rewrite length_zip_with; lia)
        || (rewrite lookup_zip_with, Ha; cbn; by rewrite Hb)).
  done.
Qed.

Lemma outage_loop_from (m k : nat) :
  (k + m ≤ cols)%nat →
  for_each (outage_step cfg mc) (seq k m) (outage_state cfg mc st rp rs k)
  = Some (outage_state cfg mc st rp rs (k + m)).
Proof.
  revert k. induction m as [|m IH]; intros k Hk.
  - by rewrite Nat.add_0_r.
  - cbn [seq for_each]. rewrite outage_step_state by lia.
    cbn [mbind option_bind]. rewrite IH by lia. do 2 f_equal. lia.
Qed.

Lemma outage_state_0 : outage_state cfg mc st rp rs 0 = st.
Proof.
  destruct Hshape as (Hsys & Hsec & Hpri & Havg & _ & _).
  unfold outage_state. destruct st as [sys sec pri avg irs irp]. cbn in *.
  destruct (matrix_shape_lookup rows cols sys mc Hsys Hmc) as (? & Es & _).
  destruct (matrix_shape_lookup rows cols sec mc Hsec Hmc) as (? & Ec & _).
  destruct (matrix_shape_lookup rows cols pri mc Hpri Hmc) as (? & Ep & _).
  destruct (matrix_shape_lookup rows cols avg mc Havg Hmc) as (? & Ea & _).
  rewrite Es, Ec, Ep, Ea, !overwritten_0.
  by rewrite !list_insert_id by done.
Qed.

(** After the loop, row [mc] of each outage array holds the indicators of
    the trial's rates, and no other row has changed. *)
Lemma outage_loop_eq :
  for_each (outage_step cfg mc) (seq 0 cols) st
  = Some {| out_probability_system :=
              <[mc := zip_with (system_outage cfg) rp rs]>
                (out_probability_system st);
            out_probability_secondary_user :=
              <[mc := secondary_outage cfg <$> rs]>
                (out_probability_secondary_user st);
            out_probability_primary_user :=
              <[mc := primary_outage cfg <$> rp]>
                (out_probability_primary_user st);
            average_rate :=
              <[mc := zip_with average_of rp rs]> (average_rate st);
            instantaneous_rate_secondary := instantaneous_rate_secondary st;
            instantaneous_rate_primary := instantaneous_rate_primary st |}.
Proof.
  destruct rate_rows_length as [Hlp Hls].
  rewrite <- outage_state_0 at 1. rewrite outage_loop_from by lia.
  destruct Hshape as (Hsys & Hsec & Hpri & Havg & _ & _).
  unfold outage_state. cbn [Nat.add].
  destruct (matrix_shape_lookup rows cols _ mc Hsys Hmc) as (o1 & -> & E1).
  destruct (matrix_shape_lookup rows cols _ mc Hsec Hmc) as (o2 & -> & E2).
  destruct (matrix_shape_lookup rows cols _ mc Hpri Hmc) as (o3 & -> & E3).
  destruct (matrix_shape_lookup rows cols _ mc Havg Hmc) as (o4 & -> & E4).
  rewrite <- E1 at 1. rewrite <- E2 at 1. rewrite <- E3 at 1.
  rewrite <- E4 at 1.
  rewrite !overwritten_all
    by (rewrite ?length_zip_with, ?length_fmap; lia).
  done.
Qed.

End OutageLoop.

(** ** The channel loop *)

Section ChannelLoop.

Variables (t : nat → R) (p : nat) (s0 sigma0 : R) (path_loss : nat).
Variables (user_X user_Y : list R) (ax ay uav_Z : R) (h d : list R).
Hypothesis Hxy : length user_X = length user_Y.
Hypothesis Hh : length h = length user_X.
Hypothesis Hd : length d = length user_X.

Let gains := gains_at t p s0 sigma0 path_loss user_X user_Y ax ay uav_Z.
Let dists := distances user_X user_Y ax ay uav_Z.

Lemma distances_length : length dists = length user_X.
Proof.
  subst dists. unfold distances. rewrite length_fmap, length_zip. lia.
Qed.

Lemma gains_at_length : length gains = length user_X.
Proof.
  subst gains. unfold gains_at. rewrite length_imap.
  apply distances_length.
Qed.

Lemma distances_lookup (k : nat) (ux uy : R) :
  user_X !! k = Some ux → user_Y !! k = Some uy →
  dists !! k = Some (user_distance ux uy ax ay uav_Z).
Proof.
  intros Hx Hy. subst dists. unfold distances.
  rewrite list_lookup_fmap, lookup_zip_with, Hx. cbn. by rewrite Hy.
Qed.

Lemma gains_at_lookup (k : nat) (ux uy : R) :
  user_X !! k = Some ux → user_Y !! k = Some uy →
  gains !! k
  = Some (user_gain s0 sigma0 path_loss (t (p + 2 * k)%nat)
            (t (p + 2 * k + 1)%nat) (user_distance ux uy ax ay uav_Z)).
Proof.
  intros Hx Hy. subst gains. unfold gains_at.
  rewrite list_lookup_imap. fold dists.
  by rewrite (distances_lookup k ux uy).
Qed.

Lemma channel_step_state (k : nat) :
  0 <= sigma0 →
  (k < length user_X)%nat →
  channel_step s0 sigma0 user_X user_Y [ax] [ay] path_loss uav_Z
    (chan_state_after t p gains dists h d k) k
  = Some (chan_state_after t p gains dists h d (S k)).
Proof.
  intros Hsig Hk.
  destruct (lookup_lt_is_Some_2 user_X k) as [ux Hx]; [lia|].
  destruct (lookup_lt_is_Some_2 user_Y k) as [uy Hy]; [lia|].
  pose proof (distances_lookup k ux uy Hx Hy) as Hdk.
  pose proof (gains_at_lookup k ux uy Hx Hy) as Hgk.
  pose proof distances_length as Hdl. pose proof gains_at_length as Hgl.
  unfold channel_step, chan_state_after, normal, advance.
  rewrite decide_False by lra.
  cbn [rng h_n distance tape pos mbind option_bind].
  rewrite decide_False by lra.
  cbn [rng h_n distance tape pos mbind option_bind]. rewrite Hx, Hy.
  cbn [mbind option_bind fmap list_fmap].
  unfold broadcast2. rewrite decide_True by done.
  cbn [mbind option_bind zip_with fmap list_fmap as_scalar].
  rewrite store_Some by (rewrite overwritten_length; lia).
  cbn [mbind option_bind].
  rewrite list_lookup_insert_eq by (rewrite overwritten_length; lia).
  cbn [mbind option_bind].
  rewrite store_Some by (rewrite overwritten_length; lia).
  cbn [mbind option_bind].
  fold (user_distance ux uy ax ay uav_Z).
  fold (fading s0 sigma0 (t (p + 2 * k)%nat) (t (p + 2 * k + 1)%nat)).
  fold (user_gain s0 sigma0 path_loss (t (p + 2 * k)%nat)
          (t (p + 2 * k + 1)%nat) (user_distance ux uy ax ay uav_Z)).
  rewrite (overwritten_step gains h k _) by (done || lia).
  rewrite (overwritten_step dists d k _) by (done || lia).
  do 3 f_equal. lia.
Qed.

Lemma channel_loop_from (m k : nat) :
  0 <= sigma0 →
  (k + m ≤ length user_X)%nat →
  for_each (channel_step s0 sigma0 user_X user_Y [ax] [ay] path_loss uav_Z)
    (seq k m) (chan_state_after t p gains dists h d k)
  = Some (chan_state_after t p gains dists h d (k + m)).
Proof.
  intros Hsig. revert k. induction m as [|m IH]; intros k Hk.
  - by rewrite Nat.add_0_r.
  - cbn [seq for_each]. rewrite channel_step_state by (done || lia).
    cbn [mbind option_bind]. rewrite IH by lia. do 2 f_equal. lia.
Qed.

(** One call with one UAV and as many users as the arrays hold: the sorted
    gains are returned, both arrays are overwritten and two variates per
    user are consumed. *)
Lemma generate_Channel_eq :
  0 <= sigma0 →
  generate_Channel s0 sigma0 (length user_X) user_X user_Y [ax] [ay]
    path_loss uav_Z {| rng := {| tape := t; pos := p |}; h_n := h;
                       distance := d |}
  = Some (sorted_reverse gains,
          {| rng := {| tape := t; pos := (p + 2 * length user_X)%nat |};
             h_n := gains; distance := dists |}).
Proof.
  intros Hsig. unfold generate_Channel.
  replace {| rng := {| tape := t; pos := p |}; h_n := h; distance := d |}
    with (chan_state_after t p gains dists h d 0).
  2:{ unfold chan_state_after. rewrite !overwritten_0.
      do 2 f_equal. lia. }
  rewrite channel_loop_from by (done || lia). cbn [mbind option_bind].
  unfold chan_state_after. cbn [h_n Nat.add].
  assert (Hg : overwritten gains h (length user_X) = gains).
  { rewrite <- Hh. apply overwritten_all. rewrite gains_at_length. lia. }
  assert (Hds : overwritten dists d (length user_X) = dists).
  { rewrite <- Hd. apply overwritten_all. rewrite distances_length. lia. }
  by rewrite Hg, Hds.
Qed.

End ChannelLoop.

(** ** Sorting, maximum and minimum *)

Lemma insert_desc_length (x : R) (l : list R) :
  length (insert_desc x l) = S (length l).
Proof.
  induction l as [|y l IH]; [done|]. cbn [insert_desc].
  case_decide; cbn [length]; [done | by rewrite IH].
Qed.

Lemma sorted_reverse_length (l : list R) :
  length (sorted_reverse l) = length l.
Proof.
  induction l as [|x l IH]; [done|].
  cbn [sorted_reverse foldr]. fold (sorted_reverse l).
  by rewrite insert_desc_length, IH.
Qed.

Lemma insert_desc_Forall (P : R → Prop) (x : R) (l : list R) :
  P x → Forall P l → Forall P (insert_desc x l).
Proof.
  intros Hx Hl. induction Hl as [|y l Hy Hl IH]; cbn [insert_desc].
  - by constructor.
  - case_decide; repeat constructor; done.
Qed.

Lemma sorted_reverse_Forall (P : R → Prop) (l : list R) :
  Forall P l → Forall P (sorted_reverse l).
Proof.
  induction 1 as [|x l Hx Hl IH]; [constructor|].
  cbn [sorted_reverse foldr]. by apply insert_desc_Forall.
Qed.

Lemma foldl_Rmax_Forall (P : R → Prop) (l : list R) (x : R) :
  P x → Forall P l → P (foldl Rmax x l).
Proof.
  intros Hx Hl. revert x Hx. induction Hl as [|y l Hy Hl IH]; intros x Hx.
  - done.
  - cbn [foldl]. apply IH. unfold Rmax. by destruct (Rle_dec x y).
Qed.

Lemma foldl_Rmin_Forall (P : R → Prop) (l : list R) (x : R) :
  P x → Forall P l → P (foldl Rmin x l).
Proof.
  intros Hx Hl. revert x Hx. induction Hl as [|y l Hy Hl IH]; intros x Hx.
  - done.
  - cbn [foldl]. apply IH. unfold Rmin. by destruct (Rle_dec x y).
Qed.

Lemma np_max_Forall (P : R → Prop) (l : list R) (m : R) :
  Forall P l → np_max l = Some m → P m.
Proof.
  intros Hl. destruct Hl as [|x l Hx Hl]; [done|].
  intros [= <-]. by apply foldl_Rmax_Forall.
Qed.

Lemma np_min_Forall (P : R → Prop) (l : list R) (m : R) :
  Forall P l → np_min l = Some m → P m.
Proof.
  intros Hl. destruct Hl as [|x l Hx Hl]; [done|].
  intros [= <-]. by apply foldl_Rmin_Forall.
Qed.

Lemma np_max_is_Some (l : list R) :
  (0 < length l)%nat → ∃ m, np_max l = Some m.
Proof. destruct l; cbn; [lia | eauto]. Qed.

Lemma np_min_is_Some (l : list R) :
  (0 < length l)%nat → ∃ m, np_min l = Some m.
Proof. destruct l; cbn; [lia | eauto]. Qed.

Lemma foldl_Rmin_le (l : list R) (x : R) : foldl Rmin x l <= x.
Proof.
  revert x. induction l as [|y l IH]; intros x; cbn [foldl]; [lra|].
  etransitivity; [apply IH | apply Rmin_l].
Qed.

Lemma foldl_Rmax_ge (l : list R) (x : R) : x <= foldl Rmax x l.
Proof.
  revert x. induction l as [|y l IH]; intros x; cbn [foldl]; [lra|].
  etransitivity; [apply Rmax_l | apply IH].
Qed.

(** [sorted_reverse] rearranges its argument in descending order. *)
Lemma insert_desc_perm (x : R) (l : list R) : insert_desc x l ≡ₚ x :: l.
Proof.
  induction l as [|y l IH]; cbn [insert_desc]; [done|].
  case_decide; [done|]. rewrite IH. apply Permutation_swap.
Qed.

Lemma sorted_reverse_perm (l : list R) : sorted_reverse l ≡ₚ l.
Proof.
  induction l as [|x l IH]; [done|].
  cbn [sorted_reverse foldr]. fold (sorted_reverse l).
  by rewrite insert_desc_perm, IH.
Qed.

Lemma insert_desc_descending (x : R) (l : list R) :
  StronglySorted (flip Rle) l → StronglySorted (flip Rle) (insert_desc x l).
Proof.
  induction 1 as [|y l Hl IH Hy]; cbn [insert_desc].
  - by repeat constructor.
  - case_decide as Hyx.
    + constructor; [by constructor|].
      constructor; [unfold flip; lra|].
      eapply Forall_impl; [exact Hy|]. unfold flip. intros z Hz. lra.
    + constructor; [done|].
      apply insert_desc_Forall; [unfold flip; lra|done].
Qed.

Lemma sorted_reverse_descending (l : list R) :
  StronglySorted (flip Rle) (sorted_reverse l).
Proof.
  induction l as [|x l IH]; [constructor|].
  cbn [sorted_reverse foldr]. by apply insert_desc_descending.
Qed.

(** Within one realisation the maximum is at least the minimum. *)
Lemma np_min_le_np_max (l : list R) (lo hi : R) :
  np_min l = Some lo → np_max l = Some hi → lo <= hi.
Proof.
  destruct l as [|x l]; [done|]. intros [= <-] [= <-].
  etransitivity; [apply foldl_Rmin_le | apply foldl_Rmax_ge].
Qed.

(** ** The geometry and the gains of one trial *)

Lemma users_xy_length (cfg : Config) (t : nat → R) (p : nat) :
  length (users_x cfg t p) = N_users cfg
  ∧ length (users_y cfg t p) = N_users cfg.
Proof.
  unfold users_x, users_y, random_Position_Users, rand. cbn [fst snd].
  rewrite !length_zip_with, !length_fmap, !length_seq. lia.
Qed.

Lemma random_Position_Users_eq (cfg : Config) (t : nat → R) (p : nat) :
  random_Position_Users (N_users cfg) (radius_user cfg)
    {| tape := t; pos := S p |}
  = ((users_x cfg t p, users_y cfg t p),
     {| tape := t; pos := (S p + N_users cfg + N_users cfg)%nat |}).
Proof. reflexivity. Qed.

Lemma s_eq (cfg : Config) :
  K cfg + 1 ≠ 0 → s cfg = Some (rician_mean cfg).
Proof.
  intros HK. unfold s, py_div, rician_mean. by rewrite decide_False.
Qed.

Lemma s_None (cfg : Config) : K cfg + 1 = 0 → s cfg = None.
Proof. intros HK. unfold s, py_div. by rewrite decide_True. Qed.

(** A non-negative Rician factor and line-of-sight power keep lines 35-36
    and [np.random.normal] from raising. *)
Lemma nonneg_rician_no_raise (cfg : Config) :
  0 <= K cfg → 0 <= P_los cfg → K cfg + 1 ≠ 0 ∧ 0 <= sigma cfg.
Proof.
  intros HK HP. split; [lra|]. unfold sigma.
  apply Rmult_le_pos; [done|]. left. apply Rinv_0_lt_compat.
  apply sqrt_lt_R0. lra.
Qed.

Lemma generate_Channel_users (cfg : Config) (t : nat → R) (p q : nat)
  (ax ay uav_Z : R) (h d : list R) :
  0 <= sigma cfg →
  length h = N_users cfg → length d = N_users cfg →
  generate_Channel (rician_mean cfg) (sigma cfg) (N_users cfg) (users_x cfg t p)
    (users_y cfg t p) [ax] [ay] (path_loss_exp cfg) uav_Z
    {| rng := {| tape := t; pos := q |}; h_n := h; distance := d |}
  = Some (sorted_reverse
            (gains_at t q (rician_mean cfg) (sigma cfg) (path_loss_exp cfg)
               (users_x cfg t p) (users_y cfg t p) ax ay uav_Z),
          {| rng := {| tape := t; pos := (q + 2 * N_users cfg)%nat |};
             h_n := gains_at t q (rician_mean cfg) (sigma cfg)
                      (path_loss_exp cfg) (users_x cfg t p)
                      (users_y cfg t p) ax ay uav_Z;
             distance := distances (users_x cfg t p) (users_y cfg t p)
                           ax ay uav_Z |}).
Proof.
  intros Hsig Hh Hd. destruct (users_xy_length cfg t p) as [Hlx Hly].
  pose proof (generate_Channel_eq t q (rician_mean cfg) (sigma cfg)
                (path_loss_exp cfg) (users_x cfg t p) (users_y cfg t p)
                ax ay uav_Z h d) as H.
  rewrite Hlx in H. apply H; (done || lia).
Qed.

Lemma gains_at_users_length (cfg : Config) (t : nat → R) (p q : nat)
  (ax ay uav_Z : R) :
  length (gains_at t q (rician_mean cfg) (sigma cfg) (path_loss_exp cfg)
            (users_x cfg t p) (users_y cfg t p) ax ay uav_Z)
  = N_users cfg.
Proof.
  destruct (users_xy_length cfg t p) as [Hlx Hly].
  unfold gains_at, distances.
  rewrite length_imap, length_fmap, length_zip. lia.
Qed.

(** The gains of a trial are the maximum of the first realisation and the
    minimum of the second one. *)
Lemma trial_gains_eq (cfg : Config) (t : nat → R) (p : nat) :
  M_uav cfg = 1%nat → K cfg + 1 ≠ 0 → 0 <= sigma cfg →
  trial_gains cfg {| tape := t; pos := p |}
  = gp ← np_max (sorted_reverse (first_gains cfg t p));
    gs ← np_min (sorted_reverse (second_gains cfg t p));
    Some (gp, gs, {| tape := t; pos := (p + draws_per_trial cfg)%nat |}).
Proof.
  intros HM HK Hsig.
  unfold trial_gains, random_Position_UAV, rand, advance. rewrite HM.
  cbn [tape pos seq fmap list_fmap].
  replace (p + 1)%nat with (S p) by lia.
  rewrite random_Position_Users_eq.
  unfold channel_gains. rewrite s_eq by done. cbn [mbind option_bind].
  rewrite generate_Channel_users by (done || apply length_replicate).
  cbn [mbind option_bind]. fold (uav_x cfg t p) (uav_y cfg t p).
  replace (S p + N_users cfg + N_users cfg)%nat
    with (S p + 2 * N_users cfg)%nat by lia.
  fold (first_gains cfg t p).
  destruct (np_max (sorted_reverse (first_gains cfg t p))) as [gp|];
    [|done].
  cbn [mbind option_bind].
  rewrite generate_Channel_users
    by (done || apply gains_at_users_length
        || (unfold distances; rewrite length_fmap, length_zip;
            destruct (users_xy_length cfg t p); lia)).
  cbn [mbind option_bind]. fold (second_gains cfg t p).
  destruct (np_min (sorted_reverse (second_gains cfg t p))) as [gs|];
    [|done].
  cbn [mbind option_bind rng]. unfold draws_per_trial.
  do 3 f_equal. lia.
Qed.

(** With at least one user both gains exist. *)
Lemma trial_gains_total (cfg : Config) (t : nat → R) (p : nat) :
  M_uav cfg = 1%nat → (1 ≤ N_users cfg)%nat →
  K cfg + 1 ≠ 0 → 0 <= sigma cfg →
  ∃ gp gs : R,
    np_max (sorted_reverse (first_gains cfg t p)) = Some gp
    ∧ np_min (sorted_reverse (second_gains cfg t p)) = Some gs
    ∧ trial_gains cfg {| tape := t; pos := p |}
      = Some (gp, gs, {| tape := t; pos := (p + draws_per_trial cfg)%nat |}).
Proof.
  intros HM HN HK Hsig.
  destruct (np_max_is_Some (sorted_reverse (first_gains cfg t p)))
    as [gp Hgp].
  { rewrite sorted_reverse_length. unfold first_gains.
    rewrite gains_at_users_length. lia. }
  destruct (np_min_is_Some (sorted_reverse (second_gains cfg t p)))
    as [gs Hgs].
  { rewrite sorted_reverse_length. unfold second_gains.
    rewrite gains_at_users_length. lia. }
  exists gp, gs. split; [done|]. split; [done|].
  rewrite trial_gains_eq by done. by rewrite Hgp, Hgs.
Qed.

(** ** One trial *)

Lemma filled_full (f : R → R) (grid : list R) :
  filled f (length grid) (length grid) grid = f <$> grid.
Proof.
  unfold filled. by rewrite firstn_all, Nat.sub_diag, app_nil_r.
Qed.

Lemma mset_row_Some (rows cols : nat) (m : list (list R)) (i : nat)
  (r : list R) :
  matrix_shape rows cols m → (i < rows)%nat → length r = cols →
  mset_row m i r = Some (<[i := r]> m).
Proof.
  intros Hm Hi Hr. unfold mset_row.
  destruct (matrix_shape_lookup rows cols m i Hm Hi) as (row & -> & Hrow).
  cbn [mbind option_bind]. rewrite decide_True by lia. done.
Qed.

Lemma trial_eq (cfg : Config) (g g' : Rng) (stats : Stats) (mc : nat)
  (p0 p1 : R) (rest : list R) (gp gs : R) :
  powerCoeff cfg = p0 :: p1 :: rest →
  stats_shape (N_mc cfg) (length (snr_dB cfg)) stats →
  (mc < N_mc cfg)%nat →
  trial_gains cfg g = Some (gp, gs, g') →
  trial cfg (g, stats) mc
  = Some (g', write_rows stats mc (rows_of_gains cfg gp gs p0 p1)).
Proof.
  intros Hpow Hshape Hmc Hgains.
  pose proof Hshape as (Hsys & Hsec & Hpri & Havg & Hirs & Hirp).
  unfold trial. rewrite Hgains. cbn [mbind option_bind].
  rewrite Hpow, calculate_Instantaneous_Rate_eq by done.
  cbn [mbind option_bind].
  rewrite <- (snr_linear_length cfg), !filled_full.
  set (rp := primary_rate_at gp gs p0 p1 (target_rate_primary_user cfg)
               <$> snr_linear cfg).
  set (rs := secondary_rate_at gs p1 <$> snr_linear cfg).
  assert (Hlp : length rp = length (snr_dB cfg))
    by (subst rp; by rewrite length_fmap, snr_linear_length).
  assert (Hls : length rs = length (snr_dB cfg))
    by (subst rs; by rewrite length_fmap, snr_linear_length).
  rewrite (mset_row_Some (N_mc cfg) (length (snr_dB cfg))) by done.
  cbn [mbind option_bind].
  rewrite (mset_row_Some (N_mc cfg) (length (snr_dB cfg))) by done.
  cbn [mbind option_bind].
  rewrite snr_linear_length.
  rewrite (outage_loop_eq cfg mc (N_mc cfg) (length (snr_dB cfg)) _ rp rs).
  - done.
  - repeat split; cbn; try done; try apply Hsys; try apply Hsec;
      try apply Hpri; try apply Havg; try (rewrite length_insert; apply Hirs);
      try (rewrite length_insert; apply Hirp);
      apply Forall_insert; (apply Hirs || apply Hirp || done).
  - done.
  - cbn. apply list_lookup_insert_eq. by destruct Hirp as [-> _].
  - cbn. apply list_lookup_insert_eq. by destruct Hirs as [-> _].
Qed.

(** ** The Monte Carlo loop *)

Lemma write_rows_shape (cfg : Config) (rows : nat) (st : Stats) (mc : nat)
  (gp gs p0 p1 : R) :
  stats_shape rows (length (snr_dB cfg)) st →
  stats_shape rows (length (snr_dB cfg))
    (write_rows st mc (rows_of_gains cfg gp gs p0 p1)).
Proof.
  intros (Hsys & Hsec & Hpri & Havg & Hirs & Hirp).
  unfold write_rows, rows_of_gains, stats_shape.
  cbn [out_probability_system out_probability_secondary_user
       out_probability_primary_user average_rate
       instantaneous_rate_secondary instantaneous_rate_primary
       row_rate_primary row_rate_secondary row_system row_primary
       row_secondary row_average].
  split_and!; apply matrix_shape_insert; try done;
    rewrite ?length_zip_with, ?length_fmap, ?snr_linear_length; lia.
Qed.

Lemma stats_row_write_eq (rows cols : nat) (st : Stats) (mc : nat)
  (r : TrialRows) :
  stats_shape rows cols st → (mc < rows)%nat →
  stats_row (write_rows st mc r) mc = Some r.
Proof.
  intros (Hsys & Hsec & Hpri & Havg & Hirs & Hirp) Hmc.
  unfold stats_row, write_rows.
  cbn [out_probability_system out_probability_secondary_user
       out_probability_primary_user average_rate
       instantaneous_rate_secondary instantaneous_rate_primary].
  rewrite !list_lookup_insert_eq
    by (by (destruct Hsys as [-> _] || destruct Hsec as [-> _]
            || destruct Hpri as [-> _] || destruct Havg as [-> _]
            || destruct Hirs as [-> _] || destruct Hirp as [-> _])).
  cbn [mbind option_bind]. by destruct r.
Qed.

Lemma stats_row_write_ne (st : Stats) (mc i : nat) (r : TrialRows) :
  i ≠ mc → stats_row (write_rows st mc r) i = stats_row st i.
Proof.
  intros Hne. unfold stats_row, write_rows.
  cbn [out_probability_system out_probability_secondary_user
       out_probability_primary_user average_rate
       instantaneous_rate_secondary instantaneous_rate_primary].
  by rewrite !list_lookup_insert_ne by done.
Qed.

Lemma initial_stats_shape (cfg : Config) :
  stats_shape (N_mc cfg) (length (snr_dB cfg)) (initial_stats cfg).
Proof. unfold stats_shape, initial_stats. cbn. split_and!; apply np_zeros2_shape. Qed.

Section MonteCarlo.

Variables (cfg : Config) (t : nat → R) (p0 p1 : R) (rest : list R).
Hypothesis HM : M_uav cfg = 1%nat.
Hypothesis HN : (1 ≤ N_users cfg)%nat.
Hypothesis Hpow : powerCoeff cfg = p0 :: p1 :: rest.
Hypothesis HK : K cfg + 1 ≠ 0.
Hypothesis Hsig : 0 <= sigma cfg.

(** Trials [k], ..., [k + m - 1], started at tape position [p]: the loop
    returns; it leaves the shape and every other row alone; and row [k + i]
    holds the rows of the gains [trial_gains] draws at position
    [p + i * draws_per_trial]. *)
Lemma simulate_from (m k p : nat) (stats : Stats) :
  stats_shape (N_mc cfg) (length (snr_dB cfg)) stats →
  (k + m ≤ N_mc cfg)%nat →
  ∃ final : Stats,
    for_each (trial cfg) (seq k m) ({| tape := t; pos := p |}, stats)
    = Some ({| tape := t; pos := (p + m * draws_per_trial cfg)%nat |}, final)
    ∧ stats_shape (N_mc cfg) (length (snr_dB cfg)) final
    ∧ (∀ i, (i < k ∨ k + m ≤ i)%nat → stats_row final i = stats_row stats i)
    ∧ (∀ i, (i < m)%nat →
         ∃ (gp gs : R) (g1 : Rng),
           trial_gains cfg
             {| tape := t; pos := (p + i * draws_per_trial cfg)%nat |}
           = Some (gp, gs, g1)
           ∧ stats_row final (k + i)
             = Some (rows_of_gains cfg gp gs p0 p1)).
Proof.
  revert k p stats. induction m as [|m IH]; intros k p stats Hshape Hk.
  - exists stats. split_and!.
    + cbn. do 3 f_equal. lia.
    + done.
    + done.
    + intros i Hi. lia.
  - destruct (trial_gains_total cfg t p HM HN HK Hsig)
      as (gp & gs & Hgp & Hgs & Hg).
    pose proof (trial_eq cfg _ _ stats k p0 p1 rest gp gs Hpow Hshape
                  ltac:(lia) Hg) as Htrial.
    set (stats1 := write_rows stats k (rows_of_gains cfg gp gs p0 p1)) in *.
    assert (Hshape1 : stats_shape (N_mc cfg) (length (snr_dB cfg)) stats1)
      by (by apply write_rows_shape).
    destruct (IH (S k) (p + draws_per_trial cfg)%nat stats1 Hshape1
                ltac:(lia)) as (final & Hrun & Hfs & Hout & Hin).
    exists final. split_and!.
    + cbn [seq for_each]. rewrite Htrial. cbn [mbind option_bind].
      rewrite Hrun. do 3 f_equal. lia.
    + done.
    + intros i Hi. rewrite Hout by lia.
      apply stats_row_write_ne. lia.
    + intros [|i] Hi.
      * eexists gp, gs, _. rewrite !Nat.add_0_r. split; [exact Hg|].
        rewrite Hout by lia.
        apply (stats_row_write_eq (N_mc cfg) (length (snr_dB cfg))); [done|lia].
      * destruct (Hin i ltac:(lia)) as (gp' & gs' & g1 & Hg' & Hrow).
        exists gp', gs', g1.
        replace (p + S i * draws_per_trial cfg)%nat
          with (p + draws_per_trial cfg + i * draws_per_trial cfg)%nat by lia.
        replace (k + S i)%nat with (S k + i)%nat by lia.
        done.
Qed.

(** The simulation returns, and every row [mc] of its arrays holds the rows
    of the gains of trial [mc]. *)
Lemma simulate_rows (p : nat) :
  ∃ final : Stats,
    simulate cfg {| tape := t; pos := p |}
    = Some ({| tape := t; pos := (p + N_mc cfg * draws_per_trial cfg)%nat |},
            final)
    ∧ stats_shape (N_mc cfg) (length (snr_dB cfg)) final
    ∧ (∀ mc, (mc < N_mc cfg)%nat →
         ∃ (gp gs : R) (g1 : Rng),
           trial_gains cfg
             {| tape := t; pos := (p + mc * draws_per_trial cfg)%nat |}
           = Some (gp, gs, g1)
           ∧ stats_row final mc = Some (rows_of_gains cfg gp gs p0 p1)).
Proof.
  destruct (simulate_from (N_mc cfg) 0 p (initial_stats cfg)
              (initial_stats_shape cfg) ltac:(lia))
    as (final & Hrun & Hshape & _ & Hin).
  exists final. unfold simulate. rewrite s_eq by done.
  cbn [mbind option_bind]. by split_and!.
Qed.

End MonteCarlo.

(** ** The channel gain of one user *)

Lemma Cplx_abs_nonneg (z : Cplx.C) : 0 <= Cplx.abs z.
Proof. apply sqrt_pos. Qed.

Lemma Cplx_abs_ge_re (z : Cplx.C) : - Cplx.abs z <= z.1 <= Cplx.abs z.
Proof.
  unfold Cplx.abs.
  assert (Hs : z.1 * z.1 <= z.1 * z.1 + z.2 * z.2) by nra.
  assert (H0 : 0 <= z.1 * z.1) by nra.
  assert (H1 : 0 <= z.1 * z.1 + z.2 * z.2) by nra.
  pose proof (sqrt_le_1 _ _ H0 H1 Hs) as Hle.
  replace (z.1 * z.1) with (Rsqr z.1) in Hle at 1 by (unfold Rsqr; ring).
  rewrite sqrt_Rsqr_abs in Hle.
  pose proof (Rle_abs z.1). pose proof (Rle_abs (- z.1)) as Hn.
  rewrite Rabs_Ropp in Hn. lra.
Qed.

(** The squared modulus of the principal square root is the modulus. *)
Lemma Cplx_sqrt_modulus (z : Cplx.C) :
  (Cplx.sqrt z).1 * (Cplx.sqrt z).1 + (Cplx.sqrt z).2 * (Cplx.sqrt z).2
  = Cplx.abs z.
Proof.
  pose proof (Cplx_abs_ge_re z) as [Hlo Hhi].
  unfold Cplx.sqrt. cbn [fst snd].
  set (m := Cplx.abs z) in *.
  assert (Ha : sqrt ((m + z.1) / 2) * sqrt ((m + z.1) / 2) = (m + z.1) / 2)
    by (apply sqrt_sqrt; lra).
  assert (Hb : sqrt ((m - z.1) / 2) * sqrt ((m - z.1) / 2) = (m - z.1) / 2)
    by (apply sqrt_sqrt; lra).
  case_decide; nra.
Qed.

(** Dividing by a positive real scales the squared modulus. *)
Lemma Cplx_abs_div_real (w : Cplx.C) (c : R) :
  0 < c →
  Cplx.abs (Cplx.div w (c, 0)) ^ 2 = (w.1 * w.1 + w.2 * w.2) / (c * c).
Proof.
  intros Hc. unfold Cplx.abs, Cplx.div. cbn [fst snd].
  rewrite <- Rsqr_pow2. rewrite Rsqr_sqrt.
  - field. lra.
  - assert (H : ∀ x : R, 0 <= x * x) by (intros; nra).
    apply Rplus_le_le_0_compat; apply H.
Qed.

Lemma user_gain_eq (s0 sigma0 : R) (path_loss : nat) (z1 z2 d : R) :
  0 <= d →
  user_gain s0 sigma0 path_loss z1 z2 d
  = sqrt ((s0 + sigma0 * z1) ^ 4 + (sigma0 * z2) ^ 4) / (1 + d ^ path_loss).
Proof.
  intros Hd. unfold user_gain.
  assert (Hp : 0 <= d ^ path_loss) by (by apply pow_le).
  rewrite Cplx_abs_div_real by (apply sqrt_lt_R0; lra).
  rewrite sqrt_sqrt by lra.
  unfold fading. rewrite Cplx_sqrt_modulus.
  unfold Cplx.abs, Cplx.add, Cplx.mul, Cplx.of_real, Cplx.i. cbn [fst snd].
  do 2 f_equal. ring.
Qed.

Lemma user_gain_nonneg (s0 sigma0 : R) (path_loss : nat) (z1 z2 d : R) :
  0 <= user_gain s0 sigma0 path_loss z1 z2 d.
Proof. unfold user_gain. apply pow2_ge_0. Qed.

Lemma user_distance_nonneg (ux uy ax ay uav_Z : R) :
  0 <= user_distance ux uy ax ay uav_Z.
Proof. apply sqrt_pos. Qed.

Lemma user_distance_sqr (ux uy ax ay uav_Z : R) :
  user_distance ux uy ax ay uav_Z ^ 2
  = (ux - ax) ^ 2 + (uy - ay) ^ 2 + uav_Z ^ 2.
Proof.
  unfold user_distance. rewrite <- Rsqr_pow2, Rsqr_sqrt; [done|].
  pose proof (pow2_ge_0 (ux - ax)). pose proof (pow2_ge_0 (uy - ay)).
  pose proof (pow2_ge_0 uav_Z). lra.
Qed.

(** ** The script's configuration with the UAV at angle zero and both users
    at the centre *)

Section CentreGeometry.

Variable t : nat → R.
Hypothesis Ht0 : t 0%nat = 0.
Hypothesis Ht1 : t 1%nat = 0.
Hypothesis Ht2 : t 2%nat = 0.
Hypothesis Ht3 : t 3%nat = 0.
Hypothesis Ht4 : t 4%nat = 0.

Lemma centre_uav :
  uav_x default_config t 0 = 1 ∧ uav_y default_config t 0 = 0.
Proof.
  unfold uav_x, uav_y. cbn [radius_uav default_config].
  rewrite Ht0, Rmult_0_l, cos_0, sin_0. lra.
Qed.

Lemma centre_users :
  users_x default_config t 0 = [0; 0] ∧ users_y default_config t 0 = [0; 0].
Proof.
  unfold users_x, users_y, random_Position_Users, rand.
  cbn [N_users radius_user default_config tape pos advance seq fmap
       list_fmap zip_with fst snd Nat.add].
  rewrite Ht1, Ht2, Ht3, Ht4, sqrt_0, !Rmult_0_l. done.
Qed.

Lemma centre_distance : user_distance 0 0 1 0 30.0 ^ 2 = 901.
Proof. rewrite user_distance_sqr. lra. Qed.

Lemma centre_user_gain (z1 z2 : R) :
  user_gain (rician_mean default_config) (sigma default_config) 2 z1 z2
    (user_distance 0 0 1 0 30.0)
  = centre_gain z1 z2.
Proof.
  rewrite user_gain_eq by apply user_distance_nonneg.
  rewrite centre_distance. unfold centre_gain. f_equal. lra.
Qed.

Lemma centre_first_gains :
  first_gains default_config t 0
  = [centre_gain (t 5%nat) (t 6%nat); centre_gain (t 7%nat) (t 8%nat)].
Proof.
  destruct centre_uav as [Hx Hy]. destruct centre_users as [Hux Huy].
  unfold first_gains, gains_at, distances. rewrite Hx, Hy, Hux, Huy.
  cbn [N_users path_loss_exp default_config zip zip_with fmap list_fmap
       imap fst snd Nat.add Nat.mul compose].
  by rewrite !centre_user_gain.
Qed.

Lemma centre_second_gains :
  second_gains default_config t 0
  = [centre_gain (t 9%nat) (t 10%nat); centre_gain (t 11%nat) (t 12%nat)].
Proof.
  destruct centre_uav as [Hx Hy]. destruct centre_users as [Hux Huy].
  unfold second_gains, gains_at, distances. rewrite Hx, Hy, Hux, Huy.
  cbn [N_users path_loss_exp default_config zip zip_with fmap list_fmap
       imap fst snd Nat.add Nat.mul compose].
  by rewrite !centre_user_gain.
Qed.

End CentreGeometry.

Lemma default_s_sigma_pos :
  0 < sigma default_config < rician_mean default_config.
Proof.
  unfold rician_mean, sigma. cbn [K P_los default_config].
  replace (8 / (8 + 1) * 1.0) with (8 / 9) by lra.
  replace (2 * (8 + 1)) with 18 by lra.
  assert (H18 : 4 < sqrt 18).
  { rewrite <- (sqrt_Rsqr 4) by lra. apply sqrt_lt_1; unfold Rsqr; lra. }
  assert (H89 : / 4 < sqrt (8 / 9)).
  { rewrite <- (sqrt_Rsqr (/ 4)) by lra. apply sqrt_lt_1; unfold Rsqr; lra. }
  assert (Hi : / sqrt 18 < / 4) by (apply Rinv_lt_contravar; lra).
  split; [apply Rdiv_lt_0_compat; lra | lra].
Qed.

Lemma default_s_sqr : rician_mean default_config ^ 2 = 8 / 9.
Proof.
  unfold rician_mean. cbn [K P_los default_config].
  rewrite <- Rsqr_pow2, Rsqr_sqrt; lra.
Qed.

Lemma default_K_not_minus_one : K default_config + 1 ≠ 0.
Proof. cbn [K default_config]. lra. Qed.

Lemma default_sigma_nonneg : 0 <= sigma default_config.
Proof. pose proof default_s_sigma_pos. lra. Qed.

(** With no scattered component the gain is the squared line-of-sight
    amplitude over 902. *)
Lemma centre_gain_los (z1 : R) :
  centre_gain z1 0
  = (rician_mean default_config + sigma default_config * z1) ^ 2 / 902.
Proof.
  unfold centre_gain. f_equal.
  replace ((rician_mean default_config + sigma default_config * z1) ^ 4
           + (sigma default_config * 0) ^ 4)
    with (Rsqr ((rician_mean default_config + sigma default_config * z1) ^ 2))
    by (unfold Rsqr; ring).
  apply sqrt_Rsqr, pow2_ge_0.
Qed.

(** ** Reading the result arrays *)

Lemma stats_row_fields (st : Stats) (mc : nat) (r : TrialRows) :
  stats_row st mc = Some r →
  instantaneous_rate_primary st !! mc = Some (row_rate_primary r)
  ∧ instantaneous_rate_secondary st !! mc = Some (row_rate_secondary r)
  ∧ out_probability_system st !! mc = Some (row_system r)
  ∧ out_probability_primary_user st !! mc = Some (row_primary r)
  ∧ out_probability_secondary_user st !! mc = Some (row_secondary r)
  ∧ average_rate st !! mc = Some (row_average r).
Proof.
  unfold stats_row.
  destruct (instantaneous_rate_primary st !! mc); [|done].
  destruct (instantaneous_rate_secondary st !! mc); [|done].
  destruct (out_probability_system st !! mc); [|done].
  destruct (out_probability_primary_user st !! mc); [|done].
  destruct (out_probability_secondary_user st !! mc); [|done].
  destruct (average_rate st !! mc); [|done].
  cbn. by intros [= <-].
Qed.

Lemma rows_of_gains_lookup (cfg : Config) (gp gs p0 p1 : R) (sn : nat)
  (g : R) :
  snr_linear cfg !! sn = Some g →
  let rate_p :=
    primary_rate_at gp gs p0 p1 (target_rate_primary_user cfg) g in
  let rate_s := secondary_rate_at gs p1 g in
  let r := rows_of_gains cfg gp gs p0 p1 in
  row_rate_primary r !! sn = Some rate_p
  ∧ row_rate_secondary r !! sn = Some rate_s
  ∧ row_system r !! sn = Some (system_outage cfg rate_p rate_s)
  ∧ row_primary r !! sn = Some (primary_outage cfg rate_p)
  ∧ row_secondary r !! sn = Some (secondary_outage cfg rate_s)
  ∧ row_average r !! sn = Some (average_of rate_p rate_s).
Proof.
  intros Hg. cbn zeta. unfold rows_of_gains.
  cbn [row_rate_primary row_rate_secondary row_system row_primary
       row_secondary row_average].
  rewrite !lookup_zip_with, !list_lookup_fmap, Hg.
  by cbn.
Qed.

(** ** The outage indicators *)

(** C6: on a well-formed configuration the simulation returns, and for
    every trial [mc] and grid point [sn] the system outage indicator it
    leaves at [mc, sn] is 1 when the primary rate stored at [mc, sn] is below
    its target or the secondary rate stored there is below its target, and 0
    otherwise. *)
Theorem system_outage_indicator (cfg : Config) (t : nat → R) (p : nat) :
  well_formed cfg →
  ∃ (g' : Rng) (final : Stats),
    simulate cfg {| tape := t; pos := p |} = Some (g', final)
    ∧ ∀ mc sn : nat,
        (mc < N_mc cfg)%nat → (sn < length (snr_dB cfg))%nat →
        ∃ rate_p rate_s : R,
          mget (instantaneous_rate_primary final) mc sn = Some rate_p
          ∧ mget (instantaneous_rate_secondary final) mc sn = Some rate_s
          ∧ mget (out_probability_system final) mc sn
            = Some (if decide (rate_p < target_rate_primary_user cfg
                               ∨ rate_s < target_rate_secondary_user cfg)
                    then 1 else 0).
Proof.
  intros (HM & HN & Hpow & HK0 & HP0).
  destruct (nonneg_rician_no_raise cfg HK0 HP0) as [HK Hsig].
  destruct (powerCoeff cfg) as [|p0 [|p1 rest]] eqn:Epow;
    [cbn in Hpow; lia | cbn in Hpow; lia |].
  destruct (simulate_rows cfg t p0 p1 rest HM HN Epow HK Hsig p)
    as (final & Hrun & _ & Hrows).
  eexists _, final. split; [exact Hrun|].
  intros mc sn Hmc Hsn.
  destruct (Hrows mc Hmc) as (gp & gs & g1 & _ & Hrow).
  apply stats_row_fields in Hrow as (Hrp & Hrs & Hsys & _).
  destruct (lookup_lt_is_Some_2 (snr_linear cfg) sn) as [g Hg];
    [by rewrite snr_linear_length|].
  destruct (rows_of_gains_lookup cfg gp gs p0 p1 sn g Hg)
    as (Hp & Hs & Hy & _).
  eexists _, _.
  rewrite (mget_lookup _ mc sn _ Hrp), (mget_lookup _ mc sn _ Hrs),
    (mget_lookup _ mc sn _ Hsys).
  by split_and!.
Qed.

Lemma default_config_well_formed : well_formed default_config.
Proof.
  unfold well_formed. split_and!; [done | cbn; lia | cbn; lia | |].
  - cbn. lra.
  - cbn. lra.
Qed.

Lemma system_outage_indicator_witness :
  ∃ (g' : Rng) (final : Stats),
    simulate default_config {| tape := zero_tape; pos := 0 |}
    = Some (g', final)
    ∧ ∀ mc sn : nat,
        (mc < N_mc default_config)%nat →
        (sn < length (snr_dB default_config))%nat →
        ∃ rate_p rate_s : R,
          mget (instantaneous_rate_primary final) mc sn = Some rate_p
          ∧ mget (instantaneous_rate_secondary final) mc sn = Some rate_s
          ∧ mget (out_probability_system final) mc sn
            = Some (if decide
                         (rate_p < target_rate_primary_user default_config
                          ∨ rate_s
                            < target_rate_secondary_user default_config)
                    then 1 else 0).
Proof.
  apply (system_outage_indicator default_config zero_tape 0).
  apply default_config_well_formed.
Defined.

(** ** Gains of the two tapes *)

Lemma np_max_pair (a : R) : np_max (sorted_reverse [a; a]) = Some a.
Proof.
  destruct (np_max_is_Some (sorted_reverse [a; a])) as [m Hm].
  { rewrite sorted_reverse_length. cbn. lia. }
  rewrite Hm. f_equal.
  apply (np_max_Forall (λ x, x = a) (sorted_reverse [a; a])); [|done].
  apply sorted_reverse_Forall. by repeat constructor.
Qed.

Lemma np_min_pair (a : R) : np_min (sorted_reverse [a; a]) = Some a.
Proof.
  destruct (np_min_is_Some (sorted_reverse [a; a])) as [m Hm].
  { rewrite sorted_reverse_length. cbn. lia. }
  rewrite Hm. f_equal.
  apply (np_min_Forall (λ x, x = a) (sorted_reverse [a; a])); [|done].
  apply sorted_reverse_Forall. by repeat constructor.
Qed.

Lemma zero_tape_gains :
  trial_gains default_config {| tape := zero_tape; pos := 0 |}
  = Some (8 / 9 / 902, 8 / 9 / 902,
          {| tape := zero_tape;
             pos := (0 + draws_per_trial default_config)%nat |}).
Proof.
  rewrite trial_gains_eq
    by (done || apply default_K_not_minus_one || apply default_sigma_nonneg).
  rewrite (centre_first_gains zero_tape), (centre_second_gains zero_tape)
    by done.
  unfold zero_tape. rewrite np_max_pair. cbn [mbind option_bind].
  rewrite np_min_pair. cbn [mbind option_bind].
  rewrite centre_gain_los, Rmult_0_r, Rplus_0_r, default_s_sqr. done.
Qed.

Lemma two_realisations_gains :
  trial_gains default_config {| tape := two_realisations_tape; pos := 0 |}
  = Some ((rician_mean default_config - sigma default_config) ^ 2 / 902,
          (rician_mean default_config + sigma default_config) ^ 2 / 902,
          {| tape := two_realisations_tape;
             pos := (0 + draws_per_trial default_config)%nat |}).
Proof.
  rewrite trial_gains_eq
    by (done || apply default_K_not_minus_one || apply default_sigma_nonneg).
  rewrite (centre_first_gains two_realisations_tape),
    (centre_second_gains two_realisations_tape) by done.
  change (two_realisations_tape 5) with (-1).
  change (two_realisations_tape 6) with 0.
  change (two_realisations_tape 7) with (-1).
  change (two_realisations_tape 8) with 0.
  change (two_realisations_tape 9) with 1.
  change (two_realisations_tape 10) with 0.
  change (two_realisations_tape 11) with 1.
  change (two_realisations_tape 12) with 0.
  rewrite np_max_pair. cbn [mbind option_bind].
  rewrite np_min_pair. cbn [mbind option_bind].
  rewrite !centre_gain_los. do 3 f_equal; f_equal; lra.
Qed.

(** ** The two calls of [generate_Channel] *)

(** C1 fails on the script: on a tape whose fading variates are one standard
    deviation below the mean during the first call of [generate_Channel] and
    one above during the second, the primary gain (maximum of the first
    realisation) is smaller than the secondary gain (minimum of the second
    realisation). *)
Theorem gains_of_two_realisations_unordered :
  ∃ (gp gs : R) (g' : Rng),
    trial_gains default_config {| tape := two_realisations_tape; pos := 0 |}
    = Some (gp, gs, g')
    ∧ gp = (rician_mean default_config - sigma default_config) ^ 2 / 902
    ∧ gs = (rician_mean default_config + sigma default_config) ^ 2 / 902
    ∧ gp < gs.
Proof.
  eexists _, _, _. split; [apply two_realisations_gains|].
  split; [done|]. split; [done|].
  pose proof default_s_sigma_pos as [Hs1 Hs2]. nra.
Qed.

(** ** The fallback does not guarantee the target *)

(** C10: in the first trial of the script's configuration on the zero tape
    both gains are 8/9/902; at the first grid point (value 10) the NOMA rate
    is below the primary target, the engine falls back, the OMA rate
    [0.5 * ln (1 + 10 * gain)] it stores is still below the target, and the
    primary outage indicator of that trial and grid point is 1. *)
Theorem fallback_still_in_outage :
  ∃ (g' g1 : Rng) (final : Stats) (gp gs : R),
    simulate default_config {| tape := zero_tape; pos := 0 |}
    = Some (g', final)
    ∧ trial_gains default_config {| tape := zero_tape; pos := 0 |}
      = Some (gp, gs, g1)
    ∧ snr_linear default_config !! 0%nat = Some 10
    ∧ powerCoeff default_config = [0.8; 0.2]
    ∧ ln (1 + 10 * gp * 0.8 / (10 * gs * 0.2 + 1))
      < target_rate_primary_user default_config
    ∧ mget (instantaneous_rate_primary final) 0 0
      = Some (0.5 * ln (1 + 10 * gp))
    ∧ 0.5 * ln (1 + 10 * gp) < target_rate_primary_user default_config
    ∧ mget (out_probability_primary_user final) 0 0 = Some 1.
Proof.
  destruct (simulate_rows default_config zero_tape 0.8 0.2 []
              eq_refl ltac:(cbn; lia) eq_refl default_K_not_minus_one
              default_sigma_nonneg 0)
    as (final & Hrun & _ & Hrows).
  destruct (Hrows 0%nat) as (gp & gs & g1 & Hg & Hrow).
  { cbn [N_mc default_config]. apply Nat.lt_le_trans with (10 ^ 1)%nat.
    - cbn. lia.
    - apply Nat.pow_le_mono_r; lia. }
  cbn [Nat.add Nat.mul] in Hg. rewrite zero_tape_gains in Hg.
  injection Hg as <- <- <-.
  apply stats_row_fields in Hrow as (Hrp & _ & _ & Hpri & _).
  destruct (rows_of_gains_lookup default_config (8 / 9 / 902) (8 / 9 / 902)
              0.8 0.2 0 10 default_snr_linear_0) as (Hp & _ & _ & Ho & _).
  pose proof exp_1_gt_2 as He.
  assert (Hfb : ln (1 + noma_sinr (8 / 9 / 902) (8 / 9 / 902) 0.8 0.2 10)
                < 1.0).
  { apply ln_lt_exp; unfold noma_sinr; [lra|].
    replace 1.0 with 1 by lra. lra. }
  assert (Homa : 0.5 * ln (1 + 10 * (8 / 9 / 902)) < 1.0).
  { assert (ln (1 + 10 * (8 / 9 / 902)) < 1).
    { apply ln_lt_exp; lra. }
    lra. }
  unfold primary_rate_at in Hp, Ho. rewrite decide_True in Hp, Ho by done.
  eexists _, _, final, _, _.
  split; [exact Hrun|]. split; [apply zero_tape_gains|].
  split; [apply default_snr_linear_0|]. split; [done|].
  split; [exact Hfb|].
  rewrite (mget_lookup _ 0 0 _ Hrp), (mget_lookup _ 0 0 _ Hpri), Hp, Ho.
  split; [done|]. split; [exact Homa|].
  unfold primary_outage. by rewrite decide_True.
Qed.

(** ** User positions *)

Lemma random_Position_Users_lookup (numberUsers : nat) (radiusUser : R)
  (g : Rng) (k : nat) :
  (k < numberUsers)%nat →
  (random_Position_Users numberUsers radiusUser g).1.1 !! k
  = Some (sqrt (tape g (pos g + numberUsers + k)%nat) * radiusUser
          * cos (tape g (pos g + k)%nat * (PI * 2)))
  ∧ (random_Position_Users numberUsers radiusUser g).1.2 !! k
    = Some (sqrt (tape g (pos g + numberUsers + k)%nat) * radiusUser
            * sin (tape g (pos g + k)%nat * (PI * 2))).
Proof.
  intros Hk. unfold random_Position_Users, rand, advance.
  cbn [fst snd tape pos].
  rewrite !lookup_zip_with, !list_lookup_fmap, !lookup_seq_lt by done.
  by cbn.
Qed.

(** C7: the [k]-th user position is built from two variates of the tape,
    [U_theta] and [U_rho], each in [[0, 1)] as [np.random.rand] delivers
    them.  The angle is [2 * PI * U_theta], in [[0, 2 * PI)], and linear in
    [U_theta]; the radial coordinate is [radiusUser * sqrt U_rho]; the point
    has squared distance [radiusUser^2 * U_rho] from the centre, so it lies
    in the disc, and it lies within radius [r] exactly when [U_rho] is at
    most the ratio of the area of the disc of radius [r] to the area of the
    whole disc: a uniform [U_rho] makes the position uniform by area. *)
Theorem user_position_uniform_by_area (numberUsers : nat) (radiusUser : R)
  (g : Rng) (k : nat) :
  let U_theta := tape g (pos g + k)%nat in
  let U_rho := tape g (pos g + numberUsers + k)%nat in
  let theta := U_theta * (PI * 2) in
  let rho := radiusUser * sqrt U_rho in
  (k < numberUsers)%nat → 0 < radiusUser →
  0 <= U_theta < 1 → 0 <= U_rho < 1 →
  ∃ x y : R,
    (random_Position_Users numberUsers radiusUser g).1.1 !! k = Some x
    ∧ (random_Position_Users numberUsers radiusUser g).1.2 !! k = Some y
    ∧ 0 <= theta < 2 * PI
    ∧ (∀ a : R, theta <= a ↔ U_theta <= a / (2 * PI))
    ∧ x = rho * cos theta ∧ y = rho * sin theta
    ∧ x * x + y * y = radiusUser * radiusUser * U_rho
    ∧ x * x + y * y < radiusUser * radiusUser
    ∧ (∀ r : R, 0 <= r →
         (x * x + y * y <= r * r
          ↔ U_rho <= (PI * (r * r)) / (PI * (radiusUser * radiusUser)))).
Proof.
  intros U_theta U_rho theta rho Hk HR [Ht0 Ht1] [Hr0 Hr1].
  destruct (random_Position_Users_lookup numberUsers radiusUser g k Hk)
    as [Hx Hy].
  pose proof PI_RGT_0 as Hpi.
  assert (Hsq : sqrt U_rho * sqrt U_rho = U_rho) by (by apply sqrt_sqrt).
  assert (Hcs : cos theta * cos theta + sin theta * sin theta = 1).
  { pose proof (sin2_cos2 theta) as H. unfold Rsqr in H. lra. }
  assert (Hnorm : (rho * cos theta) * (rho * cos theta)
                  + (rho * sin theta) * (rho * sin theta)
                  = radiusUser * radiusUser * U_rho).
  { subst rho.
    replace (radiusUser * sqrt U_rho * cos theta
             * (radiusUser * sqrt U_rho * cos theta)
             + radiusUser * sqrt U_rho * sin theta
               * (radiusUser * sqrt U_rho * sin theta))
      with (radiusUser * radiusUser * (sqrt U_rho * sqrt U_rho)
            * (cos theta * cos theta + sin theta * sin theta)) by ring.
    rewrite Hsq, Hcs. ring. }
  exists (rho * cos theta), (rho * sin theta).
  split; [rewrite Hx; f_equal; subst rho theta U_theta U_rho; ring|].
  split; [rewrite Hy; f_equal; subst rho theta U_theta U_rho; ring|].
  split; [subst theta; nra|].
  split.
  { intros a. subst theta. split; intros H.
    - apply Rmult_le_reg_r with (2 * PI); [lra|].
      replace (a / (2 * PI) * (2 * PI)) with a by (field; lra). lra.
    - apply (Rmult_le_compat_r (2 * PI)) in H; [|lra].
      replace (a / (2 * PI) * (2 * PI)) with a in H by (field; lra). lra. }
  split; [done|]. split; [done|]. split; [exact Hnorm|].
  assert (HRR : 0 < radiusUser * radiusUser) by nra.
  split.
  { rewrite Hnorm.
    pose proof (Rmult_lt_compat_l _ _ _ HRR Hr1). lra. }
  intros r Hr. rewrite Hnorm.
  replace (PI * (r * r) / (PI * (radiusUser * radiusUser)))
    with (r * r / (radiusUser * radiusUser)) by (field; lra).
  split; intros H.
  - apply Rmult_le_reg_r with (radiusUser * radiusUser); [done|].
    replace (r * r / (radiusUser * radiusUser) * (radiusUser * radiusUser))
      with (r * r) by (field; lra).
    lra.
  - apply (Rmult_le_compat_r (radiusUser * radiusUser)) in H; [|lra].
    replace (r * r / (radiusUser * radiusUser) * (radiusUser * radiusUser))
      with (r * r) in H by (field; lra).
    lra.
Qed.

Lemma user_position_uniform_by_area_witness :
  ∃ x y : R,
    (random_Position_Users 2 2.0 {| tape := quarter_tape; pos := 1 |}).1.1
      !! 0%nat = Some x
    ∧ (random_Position_Users 2 2.0 {| tape := quarter_tape; pos := 1 |}).1.2
        !! 0%nat = Some y
    ∧ 0 <= 0.25 * (PI * 2) < 2 * PI
    ∧ (∀ a : R, 0.25 * (PI * 2) <= a ↔ 0.25 <= a / (2 * PI))
    ∧ x = 2.0 * sqrt 0.25 * cos (0.25 * (PI * 2))
    ∧ y = 2.0 * sqrt 0.25 * sin (0.25 * (PI * 2))
    ∧ x * x + y * y = 2.0 * 2.0 * 0.25
    ∧ x * x + y * y < 2.0 * 2.0
    ∧ (∀ r : R, 0 <= r →
         (x * x + y * y <= r * r
          ↔ 0.25 <= (PI * (r * r)) / (PI * (2.0 * 2.0)))).
Proof.
  apply (user_position_uniform_by_area 2 2.0
           {| tape := quarter_tape; pos := 1 |} 0).
  - lia.
  - lra.
  - simpl. unfold quarter_tape. lra.
  - simpl. unfold quarter_tape. lra.
Defined.

(** ** No validation of the parameters *)

Lemma invalid_config_not_valid : ¬ valid_configuration invalid_config.
Proof.
  intros (_ & Hr & _). cbn [radius_user invalid_config] in Hr. lra.
Qed.




(** * Further properties of the script *)

(** ** UAV position (lines 84-89) *)

(** X1: every UAV position lies on the circle of radius [radiusUAV] at
    height 30, whatever variate the generator delivers; the call returns
    [numberUAV] positions and consumes [numberUAV] variates. *)
Theorem uav_position_on_orbit (numberUAV : nat) (radiusUAV : R) (g : Rng)
  (k : nat) :
  (k < numberUAV)%nat →
  ∃ x y : R,
    (random_Position_UAV numberUAV radiusUAV g).1.1.1 !! k = Some x
    ∧ (random_Position_UAV numberUAV radiusUAV g).1.1.2 !! k = Some y
    ∧ x = radiusUAV * cos (tape g (pos g + k)%nat * (PI * 2))
    ∧ y = radiusUAV * sin (tape g (pos g + k)%nat * (PI * 2))
    ∧ x * x + y * y = radiusUAV * radiusUAV
    ∧ (random_Position_UAV numberUAV radiusUAV g).1.2 = 30
    ∧ length (random_Position_UAV numberUAV radiusUAV g).1.1.1 = numberUAV
    ∧ length (random_Position_UAV numberUAV radiusUAV g).1.1.2 = numberUAV
    ∧ (random_Position_UAV numberUAV radiusUAV g).2 = advance numberUAV g.
Proof.
  intros Hk. unfold random_Position_UAV, rand. cbn [fst snd].
  eexists _, _.
  rewrite !list_lookup_fmap, !lookup_seq_lt by done. cbn [fmap option_fmap option_map].
  split_and!; try done.
  - set (th := tape g (pos g + k)%nat * (PI * 2)).
    pose proof (sin2_cos2 th) as H. unfold Rsqr in H. nra.
  - lra.
  - by rewrite !length_fmap, length_seq.
  - by rewrite !length_fmap, length_seq.
Qed.

Lemma uav_position_on_orbit_witness :
  ∃ x y : R,
    (random_Position_UAV 1 1.0 {| tape := quarter_tape; pos := 0 |}).1.1.1
      !! 0%nat = Some x
    ∧ (random_Position_UAV 1 1.0 {| tape := quarter_tape; pos := 0 |}).1.1.2
        !! 0%nat = Some y
    ∧ x = 1.0 * cos (0.25 * (PI * 2))
    ∧ y = 1.0 * sin (0.25 * (PI * 2))
    ∧ x * x + y * y = 1.0 * 1.0
    ∧ (random_Position_UAV 1 1.0 {| tape := quarter_tape; pos := 0 |}).1.2
      = 30
    ∧ length (random_Position_UAV 1 1.0
                {| tape := quarter_tape; pos := 0 |}).1.1.1 = 1%nat
    ∧ length (random_Position_UAV 1 1.0
                {| tape := quarter_tape; pos := 0 |}).1.1.2 = 1%nat
    ∧ (random_Position_UAV 1 1.0 {| tape := quarter_tape; pos := 0 |}).2
      = advance 1 {| tape := quarter_tape; pos := 0 |}.
Proof.
  apply (uav_position_on_orbit 1 1.0 {| tape := quarter_tape; pos := 0 |} 0).
  lia.
Defined.

(** ** The SNR grid (lines 27-28) *)

Lemma ln_10_pos : 0 < ln 10.
Proof. rewrite <- ln_1. apply ln_increasing; lra. Qed.

(** X2: the linear grid has one value per dB value; the value is positive,
    converting it back with [10 * log10] returns the dB value, and the
    conversion preserves the order of the dB values. *)
Theorem snr_linear_of_dB (cfg : Config) (sn : nat) (d : Z) :
  snr_dB cfg !! sn = Some d →
  ∃ g : R,
    snr_linear cfg !! sn = Some g
    ∧ 0 < g
    ∧ 10 * (ln g / ln 10) = IZR d
    ∧ length (snr_linear cfg) = length (snr_dB cfg)
    ∧ ∀ (sn' : nat) (d' : Z) (g' : R),
        snr_dB cfg !! sn' = Some d' → snr_linear cfg !! sn' = Some g' →
        ((d < d')%Z → g < g') ∧ ((d <= d')%Z → g <= g').
Proof.
  intros Hd. pose proof ln_10_pos as H10.
  exists (Rpower 10 (IZR d / 10)).
  assert (Hg : snr_linear cfg !! sn = Some (Rpower 10 (IZR d / 10)))
    by (unfold snr_linear; by rewrite list_lookup_fmap, Hd).
  split; [done|]. split; [unfold Rpower; apply exp_pos|].
  split; [unfold Rpower; rewrite ln_exp; field; lra|].
  split; [apply snr_linear_length|].
  intros sn' d' g' Hd' Hg'.
  unfold snr_linear in Hg'. rewrite list_lookup_fmap, Hd' in Hg'.
  injection Hg' as <-.
  assert (Hlt : (d < d')%Z → Rpower 10 (IZR d / 10) < Rpower 10 (IZR d' / 10)).
  { intros H. apply IZR_lt in H. apply Rpower_lt; lra. }
  split; [done|].
  intros Hle. destruct (Z.eq_dec d d') as [->|Hne]; [lra|].
  left. apply Hlt. lia.
Qed.

Lemma snr_linear_of_dB_witness :
  ∃ g : R,
    snr_linear default_config !! 5%nat = Some g
    ∧ 0 < g
    ∧ 10 * (ln g / ln 10) = IZR 20
    ∧ length (snr_linear default_config) = length (snr_dB default_config)
    ∧ ∀ (sn' : nat) (d' : Z) (g' : R),
        snr_dB default_config !! sn' = Some d' →
        snr_linear default_config !! sn' = Some g' →
        ((20 < d')%Z → g < g') ∧ ((20 <= d')%Z → g <= g').
Proof.
  apply (snr_linear_of_dB default_config 5 20). reflexivity.
Defined.

(** ** The Rician parameters (lines 33-36) *)

(** X3: for a non-negative Rician factor and a positive line-of-sight power
    line 35 does not divide by zero and the mean [s] it computes is
    non-negative with [s^2 = K * P_los / (K + 1)], the deviation [sigma] is
    positive with [2 * sigma^2 = P_los^2 / (K + 1)]; with [P_los = 1], as in
    the script, the total power [s^2 + 2 * sigma^2] is 1 and the ratio of
    line-of-sight to scattered power is [K]; and [K = 0] gives [s = 0], the
    Rayleigh case. *)
Theorem rician_parameters (cfg : Config) :
  0 <= K cfg → 0 < P_los cfg →
  ∃ s0 : R,
    s cfg = Some s0
    ∧ 0 <= s0 ∧ 0 < sigma cfg
    ∧ s0 ^ 2 = K cfg * P_los cfg / (K cfg + 1)
    ∧ 2 * sigma cfg ^ 2 = P_los cfg ^ 2 / (K cfg + 1)
    ∧ (P_los cfg = 1 →
       s0 ^ 2 + 2 * sigma cfg ^ 2 = 1
       ∧ s0 ^ 2 = K cfg * (2 * sigma cfg ^ 2))
    ∧ (K cfg = 0 → s0 = 0).
Proof.
  intros HK HP. exists (rician_mean cfg).
  split; [apply s_eq; lra|].
  unfold rician_mean, sigma.
  set (k := K cfg) in *. set (P := P_los cfg) in *.
  assert (Hk1 : 0 < k + 1) by lra.
  assert (Hq : 0 <= k / (k + 1) * P).
  { apply Rmult_le_pos; [|lra]. apply Rmult_le_pos; [lra|].
    left. by apply Rinv_0_lt_compat. }
  assert (Hr : 0 < sqrt (2 * (k + 1))) by (apply sqrt_lt_R0; lra).
  assert (Hs2 : sqrt (k / (k + 1) * P) ^ 2 = k * P / (k + 1)).
  { rewrite <- Rsqr_pow2, Rsqr_sqrt by done. field. lra. }
  assert (Hd2 : sqrt (2 * (k + 1)) * sqrt (2 * (k + 1)) = 2 * (k + 1))
    by (apply sqrt_sqrt; lra).
  assert (Hg2 : 2 * (P / sqrt (2 * (k + 1))) ^ 2 = P ^ 2 / (k + 1)).
  { replace (2 * (P / sqrt (2 * (k + 1))) ^ 2)
      with (2 * P ^ 2 / (sqrt (2 * (k + 1)) * sqrt (2 * (k + 1))))
      by (field; lra).
    rewrite Hd2. field. lra. }
  split_and!.
  - apply sqrt_pos.
  - by apply Rdiv_lt_0_compat.
  - exact Hs2.
  - exact Hg2.
  - intros HP1. rewrite Hs2, Hg2, HP1. split; field; lra.
  - intros Hk0. rewrite Hk0.
    replace (0 / (0 + 1) * P) with 0 by (field; lra). apply sqrt_0.
Qed.

Lemma rician_parameters_witness :
  ∃ s0 : R,
    s default_config = Some s0
    ∧ 0 <= s0 ∧ 0 < sigma default_config
    ∧ s0 ^ 2
      = K default_config * P_los default_config / (K default_config + 1)
    ∧ 2 * sigma default_config ^ 2
      = P_los default_config ^ 2 / (K default_config + 1)
    ∧ (P_los default_config = 1 →
       s0 ^ 2 + 2 * sigma default_config ^ 2 = 1
       ∧ s0 ^ 2 = K default_config * (2 * sigma default_config ^ 2))
    ∧ (K default_config = 0 → s0 = 0).
Proof.
  apply (rician_parameters default_config); simpl; lra.
Defined.

(** ** One call of [generate_Channel] (lines 155-162) *)

Lemma foldl_Rmax_bounded (l : list R) (x : R) :
  Forall (λ y, y <= x) l → foldl Rmax x l = x.
Proof.
  induction 1 as [|y l Hy Hl IH]; [done|].
  cbn [foldl]. by rewrite Rmax_left.
Qed.

Lemma descending_np_max (l : list R) :
  StronglySorted (flip Rle) l → np_max l = head l.
Proof.
  destruct 1 as [|x l Hl Hx]; [done|].
  cbn [np_max head]. by rewrite foldl_Rmax_bounded.
Qed.

Lemma descending_np_min (l : list R) :
  StronglySorted (flip Rle) l → np_min l = last l.
Proof.
  induction 1 as [|x l Hl IH Hx]; [done|].
  destruct l as [|y l]; [done|].
  cbn [np_min foldl]. apply Forall_cons in Hx as [Hy _]. unfold flip in Hy.
  rewrite Rmin_right by done.
  change (last (x :: y :: l)) with (last (y :: l)). by rewrite <- IH.
Qed.

Lemma gains_at_nonneg (t : nat → R) (p : nat) (s0 sigma0 : R)
  (path_loss : nat) (user_X user_Y : list R) (ax ay uav_Z : R) :
  Forall (λ x, 0 <= x)
    (gains_at t p s0 sigma0 path_loss user_X user_Y ax ay uav_Z).
Proof.
  apply Forall_lookup_2. intros i x. unfold gains_at.
  rewrite list_lookup_imap.
  destruct (distances user_X user_Y ax ay uav_Z !! i) as [d|]; [|done].
  intros [= <-]. apply user_gain_nonneg.
Qed.

(** X4: a call with one UAV and arrays of the users' size returns the gains
    it has just written to [h_n], rearranged in descending order: they are
    non-negative, the first one is their maximum and the last one their
    minimum, as the docstring promises; the call consumes two variates per
    user. *)
Theorem generate_Channel_sorted (s0 sigma0 : R) (path_loss : nat)
  (user_X user_Y : list R) (ax ay uav_Z : R) (g : Rng) (h d : list R) :
  0 <= sigma0 →
  length user_X = length user_Y →
  length h = length user_X → length d = length user_X →
  ∃ (gains : list R) (st' : ChanState),
    generate_Channel s0 sigma0 (length user_X) user_X user_Y [ax] [ay]
      path_loss uav_Z {| rng := g; h_n := h; distance := d |}
    = Some (gains, st')
    ∧ gains ≡ₚ h_n st'
    ∧ StronglySorted (flip Rle) gains
    ∧ Forall (λ x, 0 <= x) gains
    ∧ length gains = length user_X
    ∧ np_max gains = head gains
    ∧ np_min gains = last gains
    ∧ rng st' = advance (2 * length user_X) g.
Proof.
  intros Hsig Hxy Hh Hd. destruct g as [t p].
  eexists _, _.
  split; [by apply generate_Channel_eq|].
  cbn [h_n rng].
  split; [apply sorted_reverse_perm|].
  split; [apply sorted_reverse_descending|].
  split; [apply sorted_reverse_Forall, gains_at_nonneg|].
  split.
  { rewrite sorted_reverse_length. unfold gains_at, distances.
    rewrite length_imap, length_fmap, length_zip. lia. }
  split; [apply descending_np_max, sorted_reverse_descending|].
  split; [apply descending_np_min, sorted_reverse_descending|].
  done.
Qed.

Lemma generate_Channel_sorted_witness :
  ∃ (gains : list R) (st' : ChanState),
    generate_Channel (rician_mean default_config) (sigma default_config)
      (length [0; 0]) [0; 0] [0; 0] [1] [0] 2 30.0
      {| rng := {| tape := two_realisations_tape; pos := 5 |};
         h_n := np_zeros 2; distance := np_zeros 2 |}
    = Some (gains, st')
    ∧ gains ≡ₚ h_n st'
    ∧ StronglySorted (flip Rle) gains
    ∧ Forall (λ x, 0 <= x) gains
    ∧ length gains = length [0; 0]
    ∧ np_max gains = head gains
    ∧ np_min gains = last gains
    ∧ rng st'
      = advance (2 * length [0; 0])
          {| tape := two_realisations_tape; pos := 5 |}.
Proof.
  apply (generate_Channel_sorted (rician_mean default_config)
           (sigma default_config) 2 [0; 0] [0; 0] 1 0 30.0
           {| tape := two_realisations_tape; pos := 5 |}
           (np_zeros 2) (np_zeros 2));
    [apply default_sigma_nonneg | reflexivity..].
Defined.

Lemma user_distance_ge_altitude (ux uy ax ay uav_Z : R) :
  Rabs uav_Z <= user_distance ux uy ax ay uav_Z.
Proof.
  unfold user_distance. rewrite <- sqrt_Rsqr_abs.
  pose proof (pow2_ge_0 (ux - ax)). pose proof (pow2_ge_0 (uy - ay)).
  apply sqrt_le_1_alt. unfold Rsqr. lra.
Qed.

(** X5: the gain the call leaves in [h_n] for user [k] is the fading power
    [sqrt (n1^4 + n2^4)], with [n1 = s + sigma * z1] and [n2 = sigma * z2]
    the two normal draws of that user, divided by [1 + d^path_loss], where
    [d] is the distance the call leaves in [distance]; the complex square
    root and modulus of lines 157-159 amount to this.  The distance is at
    least the UAV height, so the gain is at most the fading power over
    [1 + |uav_Z|^path_loss]. *)
Theorem channel_gain_closed_form (s0 sigma0 : R) (path_loss : nat)
  (user_X user_Y : list R) (ax ay uav_Z : R) (g : Rng) (h d : list R)
  (k : nat) (ux uy : R) :
  0 <= sigma0 →
  length user_X = length user_Y →
  length h = length user_X → length d = length user_X →
  user_X !! k = Some ux → user_Y !! k = Some uy →
  ∃ (gains : list R) (st' : ChanState) (dk hk : R),
    generate_Channel s0 sigma0 (length user_X) user_X user_Y [ax] [ay]
      path_loss uav_Z {| rng := g; h_n := h; distance := d |}
    = Some (gains, st')
    ∧ distance st' !! k = Some dk
    ∧ dk = sqrt ((ux - ax) ^ 2 + (uy - ay) ^ 2 + uav_Z ^ 2)
    ∧ Rabs uav_Z <= dk
    ∧ h_n st' !! k = Some hk
    ∧ hk = sqrt ((s0 + sigma0 * tape g (pos g + 2 * k)%nat) ^ 4
                 + (sigma0 * tape g (pos g + 2 * k + 1)%nat) ^ 4)
           / (1 + dk ^ path_loss)
    ∧ 0 <= hk
    ∧ hk <= sqrt ((s0 + sigma0 * tape g (pos g + 2 * k)%nat) ^ 4
                  + (sigma0 * tape g (pos g + 2 * k + 1)%nat) ^ 4)
            / (1 + Rabs uav_Z ^ path_loss).
Proof.
  intros Hsig Hxy Hh Hd Hx Hy. destruct g as [t p]. cbn [tape pos].
  eexists _, _, _, _.
  split; [by apply generate_Channel_eq|].
  cbn [h_n distance].
  split; [by apply (distances_lookup user_X user_Y ax ay uav_Z k ux uy)|].
  split; [done|].
  split; [apply user_distance_ge_altitude|].
  split; [by apply (gains_at_lookup t p s0 sigma0 path_loss user_X user_Y
                      ax ay uav_Z k ux uy)|].
  fold (user_distance ux uy ax ay uav_Z).
  pose proof (user_distance_nonneg ux uy ax ay uav_Z) as Hd0.
  pose proof (user_distance_ge_altitude ux uy ax ay uav_Z) as Hda.
  rewrite user_gain_eq by done.
  set (f := sqrt ((s0 + sigma0 * t (p + 2 * k)%nat) ^ 4
                  + (sigma0 * t (p + 2 * k + 1)%nat) ^ 4)).
  assert (Hf : 0 <= f) by apply sqrt_pos.
  assert (Hpa : 0 <= Rabs uav_Z ^ path_loss)
    by (apply pow_le, Rabs_pos).
  assert (Hpd : Rabs uav_Z ^ path_loss
                <= user_distance ux uy ax ay uav_Z ^ path_loss).
  { apply pow_incr. split; [apply Rabs_pos | done]. }
  split; [done|]. split.
  - apply Rmult_le_pos; [done|]. left. apply Rinv_0_lt_compat. lra.
  - apply Rmult_le_compat_l; [done|]. apply Rinv_le_contravar; lra.
Qed.

Lemma channel_gain_closed_form_witness :
  ∃ (gains : list R) (st' : ChanState) (dk hk : R),
    generate_Channel (rician_mean default_config) (sigma default_config)
      (length [0; 0]) [0; 0] [0; 0] [1] [0] 2 30.0
      {| rng := {| tape := two_realisations_tape; pos := 5 |};
         h_n := np_zeros 2; distance := np_zeros 2 |}
    = Some (gains, st')
    ∧ distance st' !! 1%nat = Some dk
    ∧ dk = sqrt ((0 - 1) ^ 2 + (0 - 0) ^ 2 + 30.0 ^ 2)
    ∧ Rabs 30.0 <= dk
    ∧ h_n st' !! 1%nat = Some hk
    ∧ hk = sqrt ((rician_mean default_config
                  + sigma default_config * two_realisations_tape 7) ^ 4
                 + (sigma default_config * two_realisations_tape 8) ^ 4)
           / (1 + dk ^ 2)
    ∧ 0 <= hk
    ∧ hk <= sqrt ((rician_mean default_config
                   + sigma default_config * two_realisations_tape 7) ^ 4
                  + (sigma default_config * two_realisations_tape 8) ^ 4)
            / (1 + Rabs 30.0 ^ 2).
Proof.
  apply (channel_gain_closed_form (rician_mean default_config)
           (sigma default_config) 2 [0; 0] [0; 0] 1 0 30.0
           {| tape := two_realisations_tape; pos := 5 |}
           (np_zeros 2) (np_zeros 2) 1 0 0);
    [apply default_sigma_nonneg | reflexivity..].
Defined.

(** ** Parameter values on which a trial raises *)

Lemma as_scalar_None (a : list R) : length a ≠ 1%nat → as_scalar a = None.
Proof. destruct a as [|x [|y a]]; cbn; done. Qed.

Lemma channel_step_not_one_uav (s0 sigma0 : R)
  (user_X user_Y uav_X uav_Y : list R) (path_loss : nat) (uav_Z : R)
  (st : ChanState) (uu : nat) :
  length uav_X = length uav_Y → length uav_X ≠ 1%nat →
  channel_step s0 sigma0 user_X user_Y uav_X uav_Y path_loss uav_Z st uu
  = None.
Proof.
  intros Hlen Hne. unfold channel_step, normal.
  destruct (decide (sigma0 < 0)); [done|]. cbn [mbind option_bind].
  destruct (user_X !! uu) as [ux|]; [|done].
  destruct (user_Y !! uu) as [uy|]; [|done].
  cbn [mbind option_bind]. unfold broadcast2.
  rewrite decide_True by (by rewrite !length_fmap).
  cbn [mbind option_bind].
  rewrite as_scalar_None; [done|].
  rewrite length_fmap, length_zip_with, !length_fmap. lia.
Qed.

Lemma for_each_first_None {S : Type} (body : S → nat → option S) (i : nat)
  (rest : list nat) (st : S) :
  body st i = None → for_each body (i :: rest) st = None.
Proof. intros H. cbn [for_each]. by rewrite H. Qed.

Lemma simulate_first_trial_None (cfg : Config) (g : Rng) :
  (1 ≤ N_mc cfg)%nat → trial_gains cfg g = None → simulate cfg g = None.
Proof.
  intros HN Hg. unfold simulate.
  destruct (s cfg) as [s0|]; [|done]. cbn [mbind option_bind].
  destruct (N_mc cfg) as [|n]; [lia|].
  cbn [seq]. apply for_each_first_None. unfold trial. by rewrite Hg.
Qed.

(** X6: the script runs with exactly one UAV.  With any other number of
    UAVs and at least one user, the distance of the first user is an array
    that does not fit the scalar slot [distance[uu]]: the first call of
    [generate_Channel] raises, and so does the simulation in its first
    trial. *)
Theorem not_one_uav_raises (cfg : Config) (g : Rng) :
  M_uav cfg ≠ 1%nat → (1 ≤ N_users cfg)%nat →
  trial_gains cfg g = None
  ∧ ((1 ≤ N_mc cfg)%nat → simulate cfg g = None).
Proof.
  intros HM HN.
  assert (Hg : trial_gains cfg g = None).
  { unfold trial_gains, random_Position_UAV, random_Position_Users, rand.
    unfold channel_gains, generate_Channel.
    destruct (s cfg) as [s0|]; [|done]. cbn [mbind option_bind].
    destruct (N_users cfg) as [|n] eqn:En; [lia|].
    cbn [seq]. rewrite for_each_first_None; [done|].
    apply channel_step_not_one_uav;
      rewrite !length_fmap, length_seq; done. }
  split; [done|]. intros Hmc. by apply simulate_first_trial_None.
Qed.

Lemma not_one_uav_raises_witness :
  trial_gains two_uav_config {| tape := zero_tape; pos := 0 |} = None
  ∧ ((1 ≤ N_mc two_uav_config)%nat →
     simulate two_uav_config {| tape := zero_tape; pos := 0 |} = None).
Proof.
  apply (not_one_uav_raises two_uav_config
           {| tape := zero_tape; pos := 0 |}).
  - simpl. lia.
  - simpl. lia.
Defined.

(** X7: with no user the gain lists are empty and [np.max] raises: the
    first trial fails, and the simulation with it. *)
Theorem no_user_raises (cfg : Config) (g : Rng) :
  N_users cfg = 0%nat →
  trial_gains cfg g = None
  ∧ ((1 ≤ N_mc cfg)%nat → simulate cfg g = None).
Proof.
  intros HN.
  assert (Hg : trial_gains cfg g = None).
  { unfold trial_gains, random_Position_UAV, random_Position_Users, rand.
    unfold channel_gains, generate_Channel. rewrite HN.
    destruct (s cfg) as [s0|]; by cbn. }
  split; [done|]. intros Hmc. by apply simulate_first_trial_None.
Qed.

Lemma no_user_raises_witness :
  trial_gains no_user_config {| tape := zero_tape; pos := 0 |} = None
  ∧ ((1 ≤ N_mc no_user_config)%nat →
     simulate no_user_config {| tape := zero_tape; pos := 0 |} = None).
Proof.
  apply (no_user_raises no_user_config {| tape := zero_tape; pos := 0 |}).
  reflexivity.
Defined.

(** ** The gains of a trial *)

(** X8: with one UAV, at least one user and a Rician factor and a
    line-of-sight power that are not negative, a trial draws its two gains
    without raising; both are non-negative, and the trial consumes
    [1 + 6 * N_users] variates: one for the UAV, two per user for the
    positions and four per user for the two channel realisations. *)
Theorem trial_gains_nonneg (cfg : Config) (g : Rng) :
  M_uav cfg = 1%nat → (1 ≤ N_users cfg)%nat →
  0 <= K cfg → 0 <= P_los cfg →
  ∃ gp gs : R,
    trial_gains cfg g = Some (gp, gs, advance (1 + 6 * N_users cfg) g)
    ∧ 0 <= gp ∧ 0 <= gs.
Proof.
  intros HM HN HK0 HP0. destruct g as [t p].
  destruct (nonneg_rician_no_raise cfg HK0 HP0) as [HK Hsig].
  destruct (trial_gains_total cfg t p HM HN HK Hsig)
    as (gp & gs & Hgp & Hgs & Hg).
  exists gp, gs. split.
  - rewrite Hg. unfold advance, draws_per_trial. cbn [tape pos].
    do 3 f_equal. lia.
  - split.
    + eapply (np_max_Forall (λ x, 0 <= x)); [|exact Hgp].
      apply sorted_reverse_Forall, gains_at_nonneg.
    + eapply (np_min_Forall (λ x, 0 <= x)); [|exact Hgs].
      apply sorted_reverse_Forall, gains_at_nonneg.
Qed.

Lemma trial_gains_nonneg_witness :
  ∃ gp gs : R,
    trial_gains default_config {| tape := two_realisations_tape; pos := 0 |}
    = Some (gp, gs,
            advance (1 + 6 * N_users default_config)
              {| tape := two_realisations_tape; pos := 0 |})
    ∧ 0 <= gp ∧ 0 <= gs.
Proof.
  apply (trial_gains_nonneg default_config
           {| tape := two_realisations_tape; pos := 0 |}).
  - reflexivity.
  - simpl. lia.
  - simpl. lra.
  - simpl. lra.
Defined.

(** ** The rate engine on arguments of other sizes (lines 204-216) *)

Lemma for_each_None_at {S : Type} (body : S → nat → option S) (i : nat)
  (idx : list nat) (st : S) :
  (∀ st', body st' i = None) → i ∈ idx → for_each body idx st = None.
Proof.
  intros Hbody Hin. revert st.
  induction idx as [|j idx IH]; intros st; [by apply elem_of_nil in Hin|].
  cbn [for_each]. apply elem_of_cons in Hin as [<-|Hin].
  - by rewrite Hbody.
  - destruct (body st j) as [st'|]; [|done]. cbn [mbind option_bind].
    by apply IH.
Qed.

(** X9: an [snrValues] longer than the grid makes the loop index
    [snr_linear] past its end: the engine raises, whatever the other
    arguments are. *)
Theorem snrValues_longer_than_grid_raises {A : Type} (cfg : Config)
  (channelPri channelSec : R) (snrValues : list A) (power : list R)
  (target : R) :
  (length (snr_dB cfg) < length snrValues)%nat →
  calculate_Instantaneous_Rate cfg channelPri channelSec snrValues power
    target = None.
Proof.
  intros Hlen. unfold calculate_Instantaneous_Rate, rate_loop.
  rewrite (for_each_None_at _ (length (snr_dB cfg))); [done| |].
  - intros b. unfold rate_step.
    rewrite (lookup_ge_None_2 (snr_linear cfg))
      by (by rewrite snr_linear_length).
    done.
  - apply elem_of_seq. lia.
Qed.

Lemma snrValues_longer_than_grid_raises_witness :
  calculate_Instantaneous_Rate default_config 0.5 0.1
    (replicate 22 0) [0.8; 0.2] 1.0 = None.
Proof.
  apply (snrValues_longer_than_grid_raises default_config 0.5 0.1
           (replicate 22 0) [0.8; 0.2] 1.0).
  simpl. lia.
Defined.

(** X10: with fewer than two power coefficients the engine raises as soon
    as there is a grid point to process; with an empty [snrValues] it never
    indexes [power] and returns the two arrays of zeros. *)
Theorem short_power_list {A : Type} (cfg : Config)
  (channelPri channelSec : R) (snrValues : list A) (power : list R)
  (target : R) :
  (length power < 2)%nat →
  calculate_Instantaneous_Rate cfg channelPri channelSec snrValues power
    target
  = match snrValues with
    | [] => Some (np_zeros (length (snr_dB cfg)),
                  np_zeros (length (snr_dB cfg)))
    | _ :: _ => None
    end.
Proof.
  intros Hp. destruct snrValues as [|a snrValues]; [done|].
  unfold calculate_Instantaneous_Rate, rate_loop.
  rewrite (for_each_None_at _ 0%nat); [done| |].
  - intros b. unfold rate_step.
    destruct (snr_linear cfg !! 0%nat) as [g|]; [|done].
    destruct power as [|p0 [|p1 power]]; [done|done|cbn in Hp; lia].
  - apply elem_of_seq. cbn [length]. lia.
Qed.

Lemma short_power_list_witness :
  calculate_Instantaneous_Rate default_config 0.5 0.1
    (snr_dB default_config) [0.8] 1.0
  = match snr_dB default_config with
    | [] => Some (np_zeros (length (snr_dB default_config)),
                  np_zeros (length (snr_dB default_config)))
    | _ :: _ => None
    end.
Proof.
  apply (short_power_list default_config 0.5 0.1 (snr_dB default_config)
           [0.8] 1.0).
  simpl. lia.
Defined.

(** X11: the returned arrays always have the length of the grid; with an
    [snrValues] shorter than the grid only its first [len(snrValues)]
    entries are computed and the other entries are the zeros the arrays were
    created with. *)
Theorem shorter_snrValues_leaves_zeros {A : Type} (cfg : Config)
  (channelPri channelSec : R) (snrValues : list A) (p0 p1 : R)
  (rest : list R) (target : R) :
  (length snrValues ≤ length (snr_dB cfg))%nat →
  ∃ rate_p rate_s : list R,
    calculate_Instantaneous_Rate cfg channelPri channelSec snrValues
      (p0 :: p1 :: rest) target = Some (rate_p, rate_s)
    ∧ length rate_p = length (snr_dB cfg)
    ∧ length rate_s = length (snr_dB cfg)
    ∧ ∀ sn : nat,
        (length snrValues ≤ sn < length (snr_dB cfg))%nat →
        rate_p !! sn = Some 0 ∧ rate_s !! sn = Some 0.
Proof.
  intros Hn. eexists _, _.
  split; [by apply calculate_Instantaneous_Rate_eq|].
  split; [apply filled_length; [done | apply snr_linear_length]|].
  split; [apply filled_length; [done | apply snr_linear_length]|].
  intros sn Hsn.
  split; apply filled_lookup_ge; rewrite ?snr_linear_length; lia.
Qed.

Lemma shorter_snrValues_leaves_zeros_witness :
  ∃ rate_p rate_s : list R,
    calculate_Instantaneous_Rate default_config 0.5 0.1 [true; false]
      [0.8; 0.2] 1.0 = Some (rate_p, rate_s)
    ∧ length rate_p = length (snr_dB default_config)
    ∧ length rate_s = length (snr_dB default_config)
    ∧ ∀ sn : nat,
        (length [true; false] ≤ sn < length (snr_dB default_config))%nat →
        rate_p !! sn = Some 0 ∧ rate_s !! sn = Some 0.
Proof.
  apply (shorter_snrValues_leaves_zeros default_config 0.5 0.1
           [true; false] 0.8 0.2 [] 1.0).
  simpl. lia.
Defined.

(** ** Bounds on the rates *)

Lemma primary_rate_at_bounds (channelPri channelSec p0 p1 target g : R) :
  0 <= channelPri → 0 <= channelSec → 0 <= p0 <= 1 → 0 <= p1 → 0 < g →
  0 <= primary_rate_at channelPri channelSec p0 p1 target g
  <= ln (1 + g * channelPri).
Proof.
  intros Hp Hs [H0 H0'] H1 Hg.
  pose proof (noma_sinr_nonneg channelPri channelSec p0 p1 g Hp Hs H0 H1 Hg)
    as Hnn.
  assert (Hx : 0 <= g * channelPri) by nra.
  assert (Hy : 0 <= g * channelSec * p1)
    by (repeat apply Rmult_le_pos; lra).
  assert (Hle : noma_sinr channelPri channelSec p0 p1 g <= g * channelPri).
  { unfold noma_sinr.
    apply Rmult_le_reg_r with (g * channelSec * p1 + 1); [lra|].
    replace (g * channelPri * p0 / (g * channelSec * p1 + 1)
             * (g * channelSec * p1 + 1))
      with (g * channelPri * p0) by (field; lra).
    nra. }
  assert (Hl0 : 0 <= ln (1 + g * channelPri)).
  { rewrite <- ln_1. apply ln_monotone; lra. }
  unfold primary_rate_at. case_decide.
  - lra.
  - split.
    + rewrite <- ln_1. apply ln_monotone; lra.
    + apply ln_monotone; lra.
Qed.

(** X12: over non-negative gains and power coefficients, with a primary
    coefficient of at most one, every rate the engine returns is
    non-negative, and the primary rate never exceeds
    [ln (1 + g * gain_primary)], the rate of the primary user alone at full
    power. *)
Theorem rates_bounded {A : Type} (cfg : Config)
  (channelPri channelSec : R) (snrValues : list A) (p0 p1 : R)
  (rest : list R) (target : R) (sn : nat) (g : R) :
  (length snrValues ≤ length (snr_dB cfg))%nat →
  (sn < length snrValues)%nat →
  snr_linear cfg !! sn = Some g →
  0 <= channelPri → 0 <= channelSec → 0 <= p0 <= 1 → 0 <= p1 →
  ∃ (rate_p rate_s : list R) (rp rs : R),
    calculate_Instantaneous_Rate cfg channelPri channelSec snrValues
      (p0 :: p1 :: rest) target = Some (rate_p, rate_s)
    ∧ rate_p !! sn = Some rp ∧ rate_s !! sn = Some rs
    ∧ 0 <= rp <= ln (1 + g * channelPri)
    ∧ 0 <= rs.
Proof.
  intros Hn Hsn Hg Hp Hs H0 H1.
  pose proof (snr_linear_pos cfg sn g Hg) as Hpos.
  eexists _, _, _, _.
  split; [by apply calculate_Instantaneous_Rate_eq|].
  split; [by apply (filled_lookup_lt _ _ _ _ sn g)|].
  split; [by apply (filled_lookup_lt _ _ _ _ sn g)|].
  split; [by apply primary_rate_at_bounds|].
  unfold secondary_rate_at. rewrite <- ln_1.
  assert (0 <= g * channelSec * p1) by (repeat apply Rmult_le_pos; lra).
  apply ln_monotone; lra.
Qed.

Lemma rates_bounded_witness :
  ∃ (rate_p rate_s : list R) (rp rs : R),
    calculate_Instantaneous_Rate default_config 0.5 0.1
      (snr_dB default_config) [0.8; 0.2] 1.0 = Some (rate_p, rate_s)
    ∧ rate_p !! 5%nat = Some rp ∧ rate_s !! 5%nat = Some rs
    ∧ 0 <= rp <= ln (1 + 100 * 0.5)
    ∧ 0 <= rs.
Proof.
  apply (rates_bounded default_config 0.5 0.1 (snr_dB default_config)
           0.8 0.2 [] 1.0 5 100).
  - simpl. lia.
  - simpl. lia.
  - apply default_snr_linear_5.
  - lra.
  - lra.
  - lra.
  - lra.
Defined.

(** X13: at a grid point where the engine keeps NOMA, the two rates add up
    to [ln (1 + g * (gain_primary * a_primary + gain_secondary *
    a_secondary))], the rate of the superposed signal. *)
Theorem noma_sum_rate {A : Type} (cfg : Config)
  (channelPri channelSec : R) (snrValues : list A) (p0 p1 : R)
  (rest : list R) (target : R) (sn : nat) (g : R) :
  (length snrValues ≤ length (snr_dB cfg))%nat →
  (sn < length snrValues)%nat →
  snr_linear cfg !! sn = Some g →
  0 <= channelPri → 0 <= channelSec → 0 <= p0 → 0 <= p1 →
  ¬ ln (1 + g * channelPri * p0 / (g * channelSec * p1 + 1)) < target →
  ∃ (rate_p rate_s : list R) (rp rs : R),
    calculate_Instantaneous_Rate cfg channelPri channelSec snrValues
      (p0 :: p1 :: rest) target = Some (rate_p, rate_s)
    ∧ rate_p !! sn = Some rp ∧ rate_s !! sn = Some rs
    ∧ rp + rs = ln (1 + g * (channelPri * p0 + channelSec * p1)).
Proof.
  intros Hn Hsn Hg Hp Hs H0 H1 Hno.
  pose proof (snr_linear_pos cfg sn g Hg) as Hpos.
  pose proof (noma_sinr_nonneg channelPri channelSec p0 p1 g Hp Hs H0 H1 Hpos)
    as Hnn.
  eexists _, _, _, _.
  split; [by apply calculate_Instantaneous_Rate_eq|].
  split; [by apply (filled_lookup_lt _ _ _ _ sn g)|].
  split; [by apply (filled_lookup_lt _ _ _ _ sn g)|].
  unfold primary_rate_at, secondary_rate_at.
  rewrite decide_False by done.
  assert (Hy : 0 <= g * channelSec * p1)
    by (repeat apply Rmult_le_pos; lra).
  rewrite <- ln_mult by lra. f_equal.
  unfold noma_sinr. field. lra.
Qed.

Lemma noma_sum_rate_witness :
  ∃ (rate_p rate_s : list R) (rp rs : R),
    calculate_Instantaneous_Rate default_config 0.5 0.1
      (snr_dB default_config) [0.8; 0.2] 0 = Some (rate_p, rate_s)
    ∧ rate_p !! 0%nat = Some rp ∧ rate_s !! 0%nat = Some rs
    ∧ rp + rs = ln (1 + 10 * (0.5 * 0.8 + 0.1 * 0.2)).
Proof.
  apply (noma_sum_rate default_config 0.5 0.1 (snr_dB default_config)
           0.8 0.2 [] 0 0 10).
  - simpl. lia.
  - simpl. lia.
  - apply default_snr_linear_0.
  - lra.
  - lra.
  - lra.
  - lra.
  - intros H.
    pose proof (ln_monotone 1 (1 + 10 * 0.5 * 0.8 / (10 * 0.1 * 0.2 + 1)))
      as Hl.
    rewrite ln_1 in Hl. lra.
Defined.

(** ** Rows of the result arrays (lines 218-241) *)

Lemma system_outage_max (cfg : Config) (rate_p rate_s : R) :
  system_outage cfg rate_p rate_s
  = Rmax (primary_outage cfg rate_p) (secondary_outage cfg rate_s).
Proof.
  unfold system_outage, primary_outage, secondary_outage.
  destruct (decide (rate_p < target_rate_primary_user cfg)) as [Hp|Hp];
    destruct (decide (rate_s < target_rate_secondary_user cfg)) as [Hs|Hs].
  - rewrite decide_True by (by left). by rewrite Rmax_left by lra.
  - rewrite decide_True by (by left). by rewrite Rmax_left by lra.
  - rewrite decide_True by (by right). by rewrite Rmax_right by lra.
  - rewrite decide_False by (by intros [?|?]). by rewrite Rmax_left by lra.
Qed.

(** X14: after the simulation of a well-formed configuration, at every
    trial [mc] and grid point [sn] the primary and the secondary outage
    indicators are the indicators of the stored rate being below the user's
    target, each is 0 or 1, the system indicator is the larger of the two
    (their logical or), and the average rate is the mean of the two stored
    rates. *)
Theorem user_outage_indicators (cfg : Config) (t : nat → R) (p : nat) :
  well_formed cfg →
  ∃ (g' : Rng) (final : Stats),
    simulate cfg {| tape := t; pos := p |} = Some (g', final)
    ∧ ∀ mc sn : nat,
        (mc < N_mc cfg)%nat → (sn < length (snr_dB cfg))%nat →
        ∃ rate_p rate_s out_p out_s : R,
          mget (instantaneous_rate_primary final) mc sn = Some rate_p
          ∧ mget (instantaneous_rate_secondary final) mc sn = Some rate_s
          ∧ mget (out_probability_primary_user final) mc sn = Some out_p
          ∧ mget (out_probability_secondary_user final) mc sn = Some out_s
          ∧ out_p = (if decide (rate_p < target_rate_primary_user cfg)
                     then 1 else 0)
          ∧ out_s = (if decide (rate_s < target_rate_secondary_user cfg)
                     then 1 else 0)
          ∧ mget (out_probability_system final) mc sn
            = Some (Rmax out_p out_s)
          ∧ mget (average_rate final) mc sn = Some ((rate_p + rate_s) / 2).
Proof.
  intros (HM & HN & Hpow & HK0 & HP0).
  destruct (nonneg_rician_no_raise cfg HK0 HP0) as [HK Hsig].
  destruct (powerCoeff cfg) as [|p0 [|p1 rest]] eqn:Epow;
    [cbn in Hpow; lia | cbn in Hpow; lia |].
  destruct (simulate_rows cfg t p0 p1 rest HM HN Epow HK Hsig p)
    as (final & Hrun & _ & Hrows).
  eexists _, final. split; [exact Hrun|].
  intros mc sn Hmc Hsn.
  destruct (Hrows mc Hmc) as (gp & gs & g1 & _ & Hrow).
  apply stats_row_fields in Hrow
    as (Hrp & Hrs & Hsys & Hpri & Hsec & Havg).
  destruct (lookup_lt_is_Some_2 (snr_linear cfg) sn) as [g Hg];
    [by rewrite snr_linear_length|].
  destruct (rows_of_gains_lookup cfg gp gs p0 p1 sn g Hg)
    as (Hp & Hs & Hy & Ho & Hc & Ha).
  eexists _, _, _, _.
  rewrite (mget_lookup _ mc sn _ Hrp), (mget_lookup _ mc sn _ Hrs),
    (mget_lookup _ mc sn _ Hsys), (mget_lookup _ mc sn _ Hpri),
    (mget_lookup _ mc sn _ Hsec), (mget_lookup _ mc sn _ Havg).
  split; [exact Hp|]. split; [exact Hs|]. split; [exact Ho|].
  split; [exact Hc|]. split; [done|]. split; [done|].
  split; [by rewrite Hy, system_outage_max|]. exact Ha.
Qed.

Lemma user_outage_indicators_witness :
  ∃ (g' : Rng) (final : Stats),
    simulate default_config {| tape := quarter_tape; pos := 0 |}
    = Some (g', final)
    ∧ ∀ mc sn : nat,
        (mc < N_mc default_config)%nat →
        (sn < length (snr_dB default_config))%nat →
        ∃ rate_p rate_s out_p out_s : R,
          mget (instantaneous_rate_primary final) mc sn = Some rate_p
          ∧ mget (instantaneous_rate_secondary final) mc sn = Some rate_s
          ∧ mget (out_probability_primary_user final) mc sn = Some out_p
          ∧ mget (out_probability_secondary_user final) mc sn = Some out_s
          ∧ out_p
            = (if decide (rate_p < target_rate_primary_user default_config)
               then 1 else 0)
          ∧ out_s
            = (if decide
                    (rate_s < target_rate_secondary_user default_config)
               then 1 else 0)
          ∧ mget (out_probability_system final) mc sn
            = Some (Rmax out_p out_s)
          ∧ mget (average_rate final) mc sn = Some ((rate_p + rate_s) / 2).
Proof.
  apply (user_outage_indicators default_config quarter_tape 0).
  apply default_config_well_formed.
Defined.



(** ** Trials do not interfere *)

(** X16: a trial of a well-formed configuration, started on arrays of the
    declared shape, returns; it keeps the shape, consumes
    [1 + 6 * N_users] variates and changes no row of any result array other
    than its own row [mc]. *)
Theorem trial_writes_own_row (cfg : Config) (g : Rng) (stats : Stats)
  (mc : nat) :
  well_formed cfg →
  stats_shape (N_mc cfg) (length (snr_dB cfg)) stats →
  (mc < N_mc cfg)%nat →
  ∃ stats' : Stats,
    trial cfg (g, stats) mc
    = Some (advance (1 + 6 * N_users cfg) g, stats')
    ∧ stats_shape (N_mc cfg) (length (snr_dB cfg)) stats'
    ∧ ∀ i : nat, i ≠ mc → stats_row stats' i = stats_row stats i.
Proof.
  intros (HM & HN & Hpow & HK0 & HP0) Hshape Hmc.
  destruct (nonneg_rician_no_raise cfg HK0 HP0) as [HK Hsig].
  destruct (powerCoeff cfg) as [|p0 [|p1 rest]] eqn:Epow;
    [cbn in Hpow; lia | cbn in Hpow; lia |].
  destruct g as [t p].
  destruct (trial_gains_total cfg t p HM HN HK Hsig)
    as (gp & gs & _ & _ & Hg).
  eexists. split.
  - rewrite (trial_eq cfg _ _ stats mc p0 p1 rest gp gs Epow Hshape Hmc Hg).
    unfold advance, draws_per_trial. cbn [tape pos]. do 3 f_equal. lia.
  - split; [by apply write_rows_shape|].
    intros i Hi. by apply stats_row_write_ne.
Qed.

Lemma trial_writes_own_row_witness :
  ∃ stats' : Stats,
    trial default_config
      ({| tape := zero_tape; pos := 0 |}, initial_stats default_config) 7
    = Some (advance (1 + 6 * N_users default_config)
              {| tape := zero_tape; pos := 0 |}, stats')
    ∧ stats_shape (N_mc default_config) (length (snr_dB default_config))
        stats'
    ∧ ∀ i : nat,
        i ≠ 7%nat →
        stats_row stats' i = stats_row (initial_stats default_config) i.
Proof.
  apply (trial_writes_own_row default_config
           {| tape := zero_tape; pos := 0 |}
           (initial_stats default_config) 7).
  - apply default_config_well_formed.
  - apply initial_stats_shape.
  - cbn [N_mc default_config]. apply Nat.lt_le_trans with (10 ^ 1)%nat.
    + simpl. lia.
    + apply Nat.pow_le_mono_r; lia.
Defined.

Lemma fmap_seq_ext (t t' : nat → R) (a n : nat) :
  (∀ i, (a ≤ i < a + n)%nat → t i = t' i) →
  t <$> seq a n = t' <$> seq a n.
Proof.
  intros H. apply list_fmap_ext. intros i x Hx.
  apply lookup_seq in Hx as [-> Hi]. apply H. lia.
Qed.

Lemma trial_window_gains (cfg : Config) (t t' : nat → R) (q : nat) :
  (∀ i, (q ≤ i < q + draws_per_trial cfg)%nat → t i = t' i) →
  first_gains cfg t q = first_gains cfg t' q
  ∧ second_gains cfg t q = second_gains cfg t' q.
Proof.
  intros H. unfold draws_per_trial in H.
  assert (Hux : users_x cfg t q = users_x cfg t' q).
  { unfold users_x, random_Position_Users, rand, advance.
    cbn [fst snd tape pos].
    rewrite (fmap_seq_ext t t' (S q) (N_users cfg))
      by (intros i Hi; apply H; lia).
    rewrite (fmap_seq_ext t t' (S q + N_users cfg) (N_users cfg))
      by (intros i Hi; apply H; lia).
    done. }
  assert (Huy : users_y cfg t q = users_y cfg t' q).
  { unfold users_y, random_Position_Users, rand, advance.
    cbn [fst snd tape pos].
    rewrite (fmap_seq_ext t t' (S q) (N_users cfg))
      by (intros i Hi; apply H; lia).
    rewrite (fmap_seq_ext t t' (S q + N_users cfg) (N_users cfg))
      by (intros i Hi; apply H; lia).
    done. }
  assert (Hax : uav_x cfg t q = uav_x cfg t' q)
    by (unfold uav_x; rewrite (H q) by lia; done).
  assert (Hay : uav_y cfg t q = uav_y cfg t' q)
    by (unfold uav_y; rewrite (H q) by lia; done).
  assert (Hlen : length (distances (users_x cfg t' q) (users_y cfg t' q)
                           (uav_x cfg t' q) (uav_y cfg t' q) 30.0)
                 = N_users cfg).
  { destruct (users_xy_length cfg t' q) as [Hlx Hly].
    unfold distances. rewrite length_fmap, length_zip. lia. }
  unfold first_gains, second_gains, gains_at.
  rewrite Hux, Huy, Hax, Hay.
  split; apply imap_ext; intros k d Hk;
    apply lookup_lt_Some in Hk; rewrite Hlen in Hk;
    rewrite (H (_ + 2 * k)%nat), (H (_ + 2 * k + 1)%nat) by lia; done.
Qed.

(** X17: the rows a simulation of a well-formed configuration leaves for
    trial [mc] depend on the generator only through the [1 + 6 * N_users]
    variates of that trial: two tapes that agree on them give the same row
    [mc] in all six arrays, however they differ elsewhere. *)
Theorem trial_row_depends_on_own_draws (cfg : Config) (t t' : nat → R)
  (p mc : nat) :
  well_formed cfg → (mc < N_mc cfg)%nat →
  (∀ i, (p + mc * draws_per_trial cfg ≤ i
         < p + mc * draws_per_trial cfg + draws_per_trial cfg)%nat →
        t i = t' i) →
  ∃ (g1 g2 : Rng) (final final' : Stats),
    simulate cfg {| tape := t; pos := p |} = Some (g1, final)
    ∧ simulate cfg {| tape := t'; pos := p |} = Some (g2, final')
    ∧ stats_row final mc = stats_row final' mc
    ∧ pos g1 = (p + N_mc cfg * (1 + 6 * N_users cfg))%nat
    ∧ pos g2 = pos g1.
Proof.
  intros (HM & HN & Hpow & HK0 & HP0) Hmc Hagree.
  destruct (nonneg_rician_no_raise cfg HK0 HP0) as [HK Hsig].
  destruct (powerCoeff cfg) as [|p0 [|p1 rest]] eqn:Epow;
    [cbn in Hpow; lia | cbn in Hpow; lia |].
  destruct (simulate_rows cfg t p0 p1 rest HM HN Epow HK Hsig p)
    as (final & Hrun & _ & Hrows).
  destruct (simulate_rows cfg t' p0 p1 rest HM HN Epow HK Hsig p)
    as (final' & Hrun' & _ & Hrows').
  destruct (Hrows mc Hmc) as (gp & gs & g1 & Hg & Hrow).
  destruct (Hrows' mc Hmc) as (gp' & gs' & g1' & Hg' & Hrow').
  rewrite trial_gains_eq in Hg, Hg' by done.
  destruct (trial_window_gains cfg t t' _ Hagree) as [E1 E2].
  rewrite E1, E2 in Hg.
  eexists _, _, final, final'.
  split; [exact Hrun|]. split; [exact Hrun'|].
  split.
  - rewrite Hrow, Hrow'.
    destruct (np_max _) as [a|]; [|done].
    destruct (np_min _) as [b|]; [|done].
    cbn in Hg, Hg'. by simplify_eq.
  - cbn [pos]. unfold draws_per_trial. split; lia.
Qed.

Lemma trial_row_depends_on_own_draws_witness :
  ∃ (g1 g2 : Rng) (final final' : Stats),
    simulate default_config {| tape := zero_tape; pos := 0 |}
    = Some (g1, final)
    ∧ simulate default_config {| tape := two_realisations_tape; pos := 0 |}
      = Some (g2, final')
    ∧ stats_row final 1 = stats_row final' 1
    ∧ pos g1
      = (0 + N_mc default_config * (1 + 6 * N_users default_config))%nat
    ∧ pos g2 = pos g1.
Proof.
  apply (trial_row_depends_on_own_draws default_config zero_tape
           two_realisations_tape 0 1).
  - apply default_config_well_formed.
  - cbn [N_mc default_config]. apply Nat.lt_le_trans with (10 ^ 1)%nat.
    + simpl. lia.
    + apply Nat.pow_le_mono_r; lia.
  - intros i Hi. unfold draws_per_trial in Hi. simpl in Hi.
    unfold zero_tape, two_realisations_tape.
    rewrite !decide_False by lia. reflexivity.
Defined.

(** ** The whole run *)

(** X18: on a well-formed configuration the simulation returns; each of the
    six result arrays has [N_mc] rows of [len(snr_dB)] entries, and the
    generator has delivered [N_mc * (1 + 6 * N_users)] variates. *)
Theorem simulate_shape (cfg : Config) (t : nat → R) (p : nat) :
  well_formed cfg →
  ∃ (g' : Rng) (final : Stats),
    simulate cfg {| tape := t; pos := p |} = Some (g', final)
    ∧ stats_shape (N_mc cfg) (length (snr_dB cfg)) final
    ∧ pos g' = (p + N_mc cfg * (1 + 6 * N_users cfg))%nat.
Proof.
  intros (HM & HN & Hpow & HK0 & HP0).
  destruct (nonneg_rician_no_raise cfg HK0 HP0) as [HK Hsig].
  destruct (powerCoeff cfg) as [|p0 [|p1 rest]] eqn:Epow;
    [cbn in Hpow; lia | cbn in Hpow; lia |].
  destruct (simulate_rows cfg t p0 p1 rest HM HN Epow HK Hsig p)
    as (final & Hrun & Hshape & _).
  eexists _, final. split; [exact Hrun|]. split; [done|].
  cbn [pos]. unfold draws_per_trial. lia.
Qed.

Lemma simulate_shape_witness :
  ∃ (g' : Rng) (final : Stats),
    simulate default_config {| tape := quarter_tape; pos := 0 |}
    = Some (g', final)
    ∧ stats_shape (N_mc default_config) (length (snr_dB default_config))
        final
    ∧ pos g'
      = (0 + N_mc default_config * (1 + 6 * N_users default_config))%nat.
Proof.
  apply (simulate_shape default_config quarter_tape 0).
  apply default_config_well_formed.
Defined.

(** ** When the fallback lowers the rate *)

(** X19: at a grid point where the engine falls back and
    [g * gain_secondary * a_secondary + 1 < 2 * a_primary], with a positive
    primary gain, the OMA rate it stores is strictly below the NOMA rate it
    discards, and so below the target as well: there the fallback lowers the
    primary rate instead of rescuing it. *)
Theorem fallback_lowers_primary_rate {A : Type} (cfg : Config)
  (channelPri channelSec : R) (snrValues : list A) (p0 p1 : R)
  (rest : list R) (target : R) (sn : nat) (g : R) :
  (length snrValues ≤ length (snr_dB cfg))%nat →
  (sn < length snrValues)%nat →
  snr_linear cfg !! sn = Some g →
  0 < channelPri → 0 <= channelSec → 0 <= p1 →
  g * channelSec * p1 + 1 < 2 * p0 →
  ln (1 + g * channelPri * p0 / (g * channelSec * p1 + 1)) < target →
  ∃ (rate_p rate_s : list R) (rp : R),
    calculate_Instantaneous_Rate cfg channelPri channelSec snrValues
      (p0 :: p1 :: rest) target = Some (rate_p, rate_s)
    ∧ rate_p !! sn = Some rp
    ∧ rp = 0.5 * ln (1 + g * channelPri)
    ∧ rp < ln (1 + g * channelPri * p0 / (g * channelSec * p1 + 1))
    ∧ rp < target.
Proof.
  intros Hn Hsn Hg Hp Hs H1 Hshare Hfb.
  pose proof (snr_linear_pos cfg sn g Hg) as Hpos.
  eexists _, _, _.
  split; [by apply calculate_Instantaneous_Rate_eq|].
  split; [by apply (filled_lookup_lt _ _ _ _ sn g)|].
  unfold primary_rate_at, noma_sinr. rewrite decide_True by done.
  split; [done|].
  set (x := g * channelPri) in *.
  assert (Hx : 0 < x) by (subst x; nra).
  assert (Hy : 0 <= g * channelSec * p1)
    by (repeat apply Rmult_le_pos; lra).
  set (y := g * channelSec * p1) in *.
  replace (g * channelPri * p0) with (x * p0) in * by (subst x; ring).
  set (v := x * p0 / (y + 1)) in *.
  assert (Hv : x < 2 * v).
  { subst v. apply Rmult_lt_reg_r with (y + 1); [lra|].
    replace (2 * (x * p0 / (y + 1)) * (y + 1)) with (2 * x * p0)
      by (field; lra).
    nra. }
  assert (Hsq : ln (1 + x) < ln ((1 + v) * (1 + v))).
  { apply ln_increasing; nra. }
  rewrite ln_mult in Hsq by lra.
  lra.
Qed.

Lemma fallback_lowers_primary_rate_witness :
  ∃ (rate_p rate_s : list R) (rp : R),
    calculate_Instantaneous_Rate default_config 0.001 0.001
      (snr_dB default_config) [0.8; 0.2] 1.0 = Some (rate_p, rate_s)
    ∧ rate_p !! 0%nat = Some rp
    ∧ rp = 0.5 * ln (1 + 10 * 0.001)
    ∧ rp < ln (1 + 10 * 0.001 * 0.8 / (10 * 0.001 * 0.2 + 1))
    ∧ rp < 1.0.
Proof.
  apply (fallback_lowers_primary_rate default_config 0.001 0.001
           (snr_dB default_config) 0.8 0.2 [] 1.0 0 10).
  - simpl. lia.
  - simpl. lia.
  - apply default_snr_linear_0.
  - lra.
  - lra.
  - lra.
  - lra.
  - apply ln_lt_exp; [lra|]. pose proof (exp_ineq1_le 1.0). lra.
Defined.

(** ** When the two realisations coincide *)

(** X20: if the generator repeats, during the second call of
    [generate_Channel], the variates it delivered during the first call, the
    two gains of the trial come from the same realisation and the primary
    gain is at least the secondary gain (one UAV, at least one user, a
    Rician factor and a line-of-sight power that are not negative). *)
Theorem gains_ordered_when_realisations_coincide (cfg : Config)
  (t : nat → R) (p : nat) :
  M_uav cfg = 1%nat → (1 ≤ N_users cfg)%nat →
  0 <= K cfg → 0 <= P_los cfg →
  (∀ i, (i < 2 * N_users cfg)%nat →
        t (S p + 2 * N_users cfg + i)%nat
        = t (S p + 2 * N_users cfg + 2 * N_users cfg + i)%nat) →
  ∃ (gp gs : R) (g' : Rng),
    trial_gains cfg {| tape := t; pos := p |} = Some (gp, gs, g')
    ∧ gs <= gp.
Proof.
  intros HM HN HK0 HP0 Hrep.
  destruct (nonneg_rician_no_raise cfg HK0 HP0) as [HK Hsig].
  destruct (trial_gains_total cfg t p HM HN HK Hsig)
    as (gp & gs & Hgp & Hgs & Hg).
  eexists gp, gs, _. split; [exact Hg|].
  assert (E : first_gains cfg t p = second_gains cfg t p).
  { unfold first_gains, second_gains, gains_at.
    assert (Hlen : length (distances (users_x cfg t p) (users_y cfg t p)
                             (uav_x cfg t p) (uav_y cfg t p) 30.0)
                   = N_users cfg).
    { destruct (users_xy_length cfg t p) as [Hlx Hly].
      unfold distances. rewrite length_fmap, length_zip. lia. }
    apply imap_ext. intros k d Hk.
    apply lookup_lt_Some in Hk. rewrite Hlen in Hk.
    replace (S p + 2 * N_users cfg + 2 * k + 1)%nat
      with (S p + 2 * N_users cfg + (2 * k + 1))%nat by lia.
    replace (S p + 2 * N_users cfg + 2 * N_users cfg + 2 * k + 1)%nat
      with (S p + 2 * N_users cfg + 2 * N_users cfg + (2 * k + 1))%nat
      by lia.
    by rewrite (Hrep (2 * k)%nat), (Hrep (2 * k + 1)%nat) by lia. }
  rewrite E in Hgp. by apply (np_min_le_np_max _ gs gp Hgs Hgp).
Qed.

Lemma gains_ordered_when_realisations_coincide_witness :
  ∃ (gp gs : R) (g' : Rng),
    trial_gains default_config {| tape := quarter_tape; pos := 0 |}
    = Some (gp, gs, g')
    ∧ gs <= gp.
Proof.
  apply (gains_ordered_when_realisations_coincide default_config
           quarter_tape 0).
  - reflexivity.
  - simpl. lia.
  - simpl. lra.
  - simpl. lra.
  - intros i Hi. reflexivity.
Defined.

(** ** A negative user radius *)

(** X21: the user positions for the radius [- r] are the point reflections
    of those for the radius [r]: the sign of the radius is carried through
    and nothing is clamped; either way the call returns [numberUsers]
    positions and consumes [2 * numberUsers] variates. *)
Theorem negative_radius_reflects_positions (numberUsers : nat) (r : R)
  (g : Rng) :
  (random_Position_Users numberUsers (- r) g).1.1
  = Ropp <$> (random_Position_Users numberUsers r g).1.1
  ∧ (random_Position_Users numberUsers (- r) g).1.2
    = Ropp <$> (random_Position_Users numberUsers r g).1.2
  ∧ length (random_Position_Users numberUsers r g).1.1 = numberUsers
  ∧ length (random_Position_Users numberUsers r g).1.2 = numberUsers
  ∧ (random_Position_Users numberUsers r g).2
    = advance (2 * numberUsers) g.
Proof.
  unfold random_Position_Users, rand, advance. cbn [fst snd tape pos].
  split_and!.
  - apply list_eq. intros i.
    rewrite list_lookup_fmap, !lookup_zip_with, !list_lookup_fmap.
    destruct (seq (pos g + numberUsers) numberUsers !! i) as [a|]; [|done].
    destruct (seq (pos g) numberUsers !! i) as [b|]; [|done].
    cbn. f_equal. ring.
  - apply list_eq. intros i.
    rewrite list_lookup_fmap, !lookup_zip_with, !list_lookup_fmap.
    destruct (seq (pos g + numberUsers) numberUsers !! i) as [a|]; [|done].
    destruct (seq (pos g) numberUsers !! i) as [b|]; [|done].
    cbn. f_equal. ring.
  - rewrite length_zip_with, !length_fmap, !length_seq. lia.
  - rewrite length_zip_with, !length_fmap, !length_seq. lia.
  - f_equal. lia.
Qed.

(** ** Rician parameters the script cannot run with (lines 35-36, 157) *)

(** X22: with the Rician factor -1 the division [K/(K+1)] of line 35 raises
    while the module-level parameters are computed: the script stops before
    its first trial, whatever the number of trials and the other parameters
    are. *)
Theorem minus_one_rician_factor_raises (cfg : Config) (g : Rng) :
  K cfg = -1 → s cfg = None ∧ simulate cfg g = None.
Proof.
  intros HK.
  assert (Hs : s cfg = None) by (apply s_None; lra).
  split; [done|]. unfold simulate. by rewrite Hs.
Qed.

Lemma minus_one_rician_factor_raises_witness :
  s minus_one_K_config = None
  ∧ simulate minus_one_K_config {| tape := zero_tape; pos := 0 |} = None.
Proof.
  apply (minus_one_rician_factor_raises minus_one_K_config
           {| tape := zero_tape; pos := 0 |}).
  reflexivity.
Defined.

(** X23: with a non-negative Rician factor and a negative line-of-sight
    power the deviation [sigma] of line 36 is negative and
    [np.random.normal] rejects it as a scale: with at least one user the
    first call of [generate_Channel] raises at its first draw, and so does
    the simulation in its first trial. *)
Theorem negative_los_power_raises (cfg : Config) (g : Rng) :
  0 <= K cfg → P_los cfg < 0 → (1 ≤ N_users cfg)%nat →
  sigma cfg < 0
  ∧ (∀ (loc : R) (g0 : Rng), normal loc (sigma cfg) g0 = None)
  ∧ trial_gains cfg g = None
  ∧ ((1 ≤ N_mc cfg)%nat → simulate cfg g = None).
Proof.
  intros HK HP HN.
  assert (Hsig : sigma cfg < 0).
  { unfold sigma.
    assert (Hr : 0 < / sqrt (2 * (K cfg + 1)))
      by (apply Rinv_0_lt_compat, sqrt_lt_R0; lra).
    unfold Rdiv. nra. }
  assert (Hn : ∀ (loc : R) (g0 : Rng), normal loc (sigma cfg) g0 = None)
    by (intros loc g0; unfold normal; by rewrite decide_True).
  assert (Hg : trial_gains cfg g = None).
  { unfold trial_gains, random_Position_UAV, random_Position_Users, rand.
    unfold channel_gains, generate_Channel.
    destruct (s cfg) as [s0|]; [|done]. cbn [mbind option_bind].
    destruct (N_users cfg) as [|n] eqn:En; [lia|].
    cbn [seq]. rewrite for_each_first_None; [done|].
    unfold channel_step. by rewrite Hn. }
  split_and!; [done..|].
  intros Hmc. by apply simulate_first_trial_None.
Qed.

Lemma negative_los_power_raises_witness :
  sigma negative_los_config < 0
  ∧ (∀ (loc : R) (g0 : Rng),
       normal loc (sigma negative_los_config) g0 = None)
  ∧ trial_gains negative_los_config {| tape := zero_tape; pos := 0 |} = None
  ∧ ((1 ≤ N_mc negative_los_config)%nat →
     simulate negative_los_config {| tape := zero_tape; pos := 0 |} = None).
Proof.
  apply (negative_los_power_raises negative_los_config
           {| tape := zero_tape; pos := 0 |}).
  - simpl. lra.
  - simpl. lra.
  - simpl. lia.
Defined.
